(** * maintapi: the maintner gRPC service of golang.org/x/build

    A shallow embedding of
    [maintner/maintnerd/maintapi/api.go] and the properties of its
    handlers [HasAncestor], [GetRef], [GoFindTryWork] and of
    [supportedGoReleases]. *)

From Stdlib Require Import ZArith Ascii String List Lia.
From stdpp Require Import gmap strings list fin_maps sorting.

Local Open Scope string_scope.
Local Open Scope Z_scope.

(* stdpp's solvers clear hypotheses that may be gone already. *)
#[local] Set Warnings "-clear-no-such-hyp".

(** ** Go base types *)

(** [int32(x)] for an [int] x: the low 32 bits, read as two's complement. *)
Definition int32 (x : Z) : Z := (x + 2 ^ 31) mod 2 ^ 32 - 2 ^ 31.

(** [int] is 64 bits wide on the platforms the service runs on. *)
Definition int (x : Z) : Z := (x + 2 ^ 63) mod 2 ^ 64 - 2 ^ 63.

(** Go's [error] values; [nil] is [None] of [option error]. *)
Definition error := string.

(** [maintner.GitHash] is a string type; its zero value is the empty string. *)
Definition GitHash := string.

(** [strings.HasPrefix(s, p)]. *)
Definition HasPrefix (s p : string) : bool := String.prefix p s.

(** [s[n:]] for [n <= len(s)]. *)
Fixpoint slice_from (n : nat) (s : string) : string :=
  match n, s with
  | O, _ => s
  | S n', String _ s' => slice_from n' s'
  | S _, EmptyString => EmptyString
  end.

(** [strings.TrimPrefix(s, p)]. *)
Definition TrimPrefix (s p : string) : string :=
  if HasPrefix s p then slice_from (String.length p) s else s.

(** ** Packages imported by api.go

    The [version] package and [maintner.GitHash.String] are used by
    api.go through these three functions only. *)
Class Imports := {
  version_ParseTag : string → Z * Z * Z * bool;
  version_ParseReleaseBranch : string → Z * Z * bool;
  GitHash_String : GitHash → string
}.

(** ** apipb messages *)

Module MajorMinor.
Record t := mk { Major : Z; Minor : Z }.
End MajorMinor.

Module GoRelease.
Record t := mk {
  Major : Z;
  Minor : Z;
  Patch : Z;
  TagName : string;
  TagCommit : string;
  BranchName : string;
  BranchCommit : string
}.
End GoRelease.

(** ** sort.Slice

    [sort.Slice] sorts a short slice by insertion: an element moves left
    while [less] puts it before its left neighbour, so elements that tie
    keep their order.  On longer slices the library's algorithm differs
    and is not stable, but every run ends in a permutation of the input
    in which no element is [less] than one before it; the theorems rely
    on nothing else, and where [less] is a strict total order on the
    elements that list is unique ([sort_Slice_order]). *)
Fixpoint sort_insert {A} (less : A → A → bool) (x : A) (l : list A) : list A :=
  match l with
  | [] => [x]
  | y :: l' => if less x y then x :: y :: l' else y :: sort_insert less x l'
  end.

Definition sort_Slice {A} (less : A → A → bool) (l : list A) : list A :=
  fold_left (λ acc x, sort_insert less x acc) l [].

(** ** supportedGoReleases *)

(** The map key [majorMinor] local to [supportedGoReleases]. *)
Module majorMinor.
Record t := mk { Major : Z; Minor : Z }.
#[global] Instance eq_dec : EqDecision t.
Proof. solve_decision. Defined.
#[global] Instance countable : Countable t :=
  inj_countable' (λ v, (Major v, Minor v)) (λ p, mk p.1 p.2)
    (λ v, match v with mk _ _ => eq_refl end).
End majorMinor.

Module tag.
Record t := mk { Patch : Z; Name : string; Commit : GitHash }.
End tag.

Module branch.
Record t := mk { Name : string; Commit : GitHash }.
End branch.

(** [nonChangeRefLister]: the refs that [ForeachNonChangeRef] enumerates,
    in the order it calls [fn] on them. *)
Definition nonChangeRefLister := list (string * GitHash).

(** [ForeachNonChangeRef] calls [fn] on each ref, threading the state the
    closure captures, and stops at the first non-nil error. *)
Fixpoint ForeachNonChangeRef {S} (goProj : nonChangeRefLister)
    (fn : string → GitHash → S → S * option error) (s : S) : S * option error :=
  match goProj with
  | [] => (s, None)
  | (ref, hash) :: rest =>
      match fn ref hash s with
      | (s', None) => ForeachNonChangeRef rest fn s'
      | (s', Some err) => (s', Some err)
      end
  end.

(** ** The corpus, as api.go reads it

    The [maintner] corpus is used through its methods only; a record field
    stands for each method the handlers call. *)

Module GitCommit.
Record t := mk { Hash : GitHash; Msg : string }.
End GitCommit.

Module GerritCL.
Record t := mk {
  Project : string;            (* cl.Project.Project() *)
  Branch : string;             (* cl.Branch() *)
  ChangeID : string;           (* cl.ChangeID() *)
  Commit : option GitCommit.t  (* cl.Commit, a pointer that may be nil *)
}.
End GerritCL.

Module GerritProject.
Record t := mk {
  Server : string;
  Project : string;
  NumLabelChanges : Z;
  Ref : string → GitHash;
  nonChangeRefs : nonChangeRefLister;
  CL : Z → option GerritCL.t
}.
End GerritProject.

Module Corpus.
Record t := mk {
  GitCommit : string → option GitCommit.t;
  (* commit.HasAncestor(a), over the commit graph of the corpus *)
  HasAncestor : GitCommit.t → GitCommit.t → bool;
  (* the projects ForeachProjectUnsorted visits *)
  projects : list GerritProject.t;
  (* Gerrit().Project(server, project); nil is None *)
  Project : string → string → option GerritProject.t
}.
End Corpus.

Record apiService := { c : Corpus.t }.

Module HasAncestorRequest.
Record t := mk { Commit : string; Ancestor : string }.
End HasAncestorRequest.

Module HasAncestorResponse.
Record t := mk { HasAncestor : bool; UnknownCommit : bool }.
End HasAncestorResponse.

Module GetRefRequest.
Record t := mk { GerritServer : string; GerritProject : string; Ref : string }.
End GetRefRequest.

Module GetRefResponse.
Record t := mk { Value : string }.
End GetRefResponse.

Module GerritTryWorkItem.
Record t := mk {
  Project : string;
  Branch : string;
  ChangeId : string;
  Commit : string;
  GoCommit : list string;
  GoBranch : list string;
  GoVersion : list MajorMinor.t
}.
End GerritTryWorkItem.

Module GoFindTryWorkResponse.
Record t := mk { Waiting : list GerritTryWorkItem.t }.
End GoFindTryWorkResponse.

(** [gerrit.ChangeInfo], the fields api.go reads. *)
Module ChangeInfo.
Record t := mk { Project : string; ChangeNumber : Z; CurrentRevision : string }.
End ChangeInfo.

(** [gerrit.Client.QueryChanges]: the answer of the remote service to a
    query with the given fields; a timeout of the context is an error. *)
Definition GerritClient := string → list string → list ChangeInfo.t * option error.

(** What a handler does: it returns its pair of results, or the goroutine
    panics on a nil pointer or an index out of range. *)
Inductive outcome (A : Type) :=
| Return (res : option A) (err : option error)
| Panic.
Arguments Return {A} res err.
Arguments Panic {A}.

(** [time.Time] and [time.Duration] in nanoseconds; the zero [Time] is 0. *)
Definition Time := Z.
Definition Second : Z := 1000000000.
Definition Time_Add (t : Time) (d : Z) : Time := t + d.
Definition Time_After (t u : Time) : bool := t >? u.

(** [var tryCache]. *)
Module tryCache.
Record t := mk {
  forNumChanges : Z;
  lastPoll : Time;
  val : option GoFindTryWorkResponse.t
}.
End tryCache.

(** The process state [GoFindTryWork] works on: the cache and the queries
    sent to Gerrit so far, latest first. *)
Record process := mkProcess {
  cache : tryCache.t;
  gerritQueries : list string
}.

(** The process at its start: the zero [tryCache], nothing sent. *)
Definition process_start : process :=
  mkProcess (tryCache.mk 0 0 None) [].

Section api.
Context `{Imports}.

Definition parseTagVersion (tagName : string) : Z * Z * Z * bool :=
  let '(maj, min, pat, ok) := version_ParseTag tagName in
  (int32 maj, int32 min, int32 pat, ok).

Definition parseReleaseBranchVersion (branchName : string) : Z * Z * bool :=
  let '(maj, min, ok) := version_ParseReleaseBranch branchName in
  (int32 maj, int32 min, ok).

(** The two maps the closure passed to [ForeachNonChangeRef] fills. *)
Record refMaps := mkRefMaps {
  tags : gmap majorMinor.t tag.t;
  branches : gmap majorMinor.t branch.t
}.

(** The closure of [supportedGoReleases], one ref at a time. *)
Definition visitRef (ref : string) (hash : GitHash) (m : refMaps)
    : refMaps * option error :=
  if HasPrefix ref "refs/tags/go" then
    let tagName := slice_from (String.length "refs/tags/") ref in
    let '(major, minor, patch, ok) := parseTagVersion tagName in
    if negb ok then (m, None)
    else
      match tags m !! majorMinor.mk major minor with
      | Some t =>
          if patch <=? tag.Patch t then (m, None)
          else (mkRefMaps (<[majorMinor.mk major minor := tag.mk patch tagName hash]> (tags m))
                          (branches m), None)
      | None =>
          (mkRefMaps (<[majorMinor.mk major minor := tag.mk patch tagName hash]> (tags m))
                     (branches m), None)
      end
  else if HasPrefix ref "refs/heads/release-branch.go" then
    let branchName := slice_from (String.length "refs/heads/") ref in
    let '(major, minor, ok) := parseReleaseBranchVersion branchName in
    if negb ok then (m, None)
    else (mkRefMaps (tags m)
                    (<[majorMinor.mk major minor := branch.mk branchName hash]> (branches m)),
          None)
  else (m, None).

(** One round of [for v, t := range tags]. *)
Definition releaseOf (bs : gmap majorMinor.t branch.t)
    (vt : majorMinor.t * tag.t) : option GoRelease.t :=
  match bs !! vt.1 with
  | None => None
  | Some b =>
      Some (GoRelease.mk (majorMinor.Major vt.1) (majorMinor.Minor vt.1)
              (tag.Patch vt.2) (tag.Name vt.2) (GitHash_String (tag.Commit vt.2))
              (branch.Name b) (GitHash_String (branch.Commit b)))
  end.

(** The [less] closure of the final [sort.Slice]: latest first. *)
Definition releaseLess (ri rj : GoRelease.t) : bool :=
  let '(x1, y1, z1) := (GoRelease.Major ri, GoRelease.Minor ri, GoRelease.Patch ri) in
  let '(x2, y2, z2) := (GoRelease.Major rj, GoRelease.Minor rj, GoRelease.Patch rj) in
  if negb (x1 =? x2) then x1 >? x2
  else if negb (y1 =? y2) then y1 >? y2
  else z1 >? z2.

(** [rs] after the sort, before the length check.  Go ranges over a map in
    an unspecified order; [map_to_list] fixes one, and the sorted list
    does not depend on it ([allReleases_order]). *)
Definition allReleases (m : refMaps) : list GoRelease.t :=
  sort_Slice releaseLess (omap (releaseOf (branches m)) (map_to_list (tags m))).

Definition supportedGoReleases (goProj : nonChangeRefLister)
    : list GoRelease.t * option error :=
  match ForeachNonChangeRef goProj visitRef (mkRefMaps ∅ ∅) with
  | (_, Some err) => ([], Some err)
  | (m, None) =>
      let rs := allReleases m in
      if (Z.of_nat (length rs) <? 2)
      then ([], Some "there was a problem finding supported Go releases")
      else (take 2 rs, None)
  end.


(** ** HasAncestor *)

Definition HasAncestor (s : apiService) (req : HasAncestorRequest.t)
    : option HasAncestorResponse.t * option error :=
  if negb (Z.of_nat (String.length (HasAncestorRequest.Commit req)) =? 40) then
    (None, Some "invalid Commit")
  else if negb (Z.of_nat (String.length (HasAncestorRequest.Ancestor req)) =? 40) then
    (None, Some "invalid Ancestor")
  else
    match Corpus.GitCommit (c s) (HasAncestorRequest.Commit req) with
    | None => (Some (HasAncestorResponse.mk false true), None)
    | Some commit =>
        match Corpus.GitCommit (c s) (HasAncestorRequest.Ancestor req) with
        | Some a =>
            (Some (HasAncestorResponse.mk (Corpus.HasAncestor (c s) commit a) false), None)
        | None => (Some (HasAncestorResponse.mk false false), None)
        end
    end.

(** ** GetRef *)

Definition GetRef (s : apiService) (req : GetRefRequest.t)
    : option GetRefResponse.t * option error :=
  match Corpus.Project (c s) (GetRefRequest.GerritServer req)
          (GetRefRequest.GerritProject req) with
  | None => (None, Some "unknown gerrit project")
  | Some gp =>
      let hash := GerritProject.Ref gp (GetRefRequest.Ref req) in
      if negb (String.eqb hash "") then
        (Some (GetRefResponse.mk (GitHash_String hash)), None)
      else (Some (GetRefResponse.mk ""), None)
  end.

(** ** GoFindTryWork *)

(** [tryWorkItem]; it reads through [cl.Commit], so a nil commit panics. *)
Definition tryWorkItem (cl : GerritCL.t) : option GerritTryWorkItem.t :=
  match GerritCL.Commit cl with
  | None => None
  | Some commit =>
      Some (GerritTryWorkItem.mk (GerritCL.Project cl)
              (TrimPrefix (GerritCL.Branch cl) "refs/heads/")
              (GerritCL.ChangeID cl)
              (GitHash_String (GitCommit.Hash commit)) [] [] [])
  end.

(** The sum of the label changes over the projects of go.googlesource.com,
    in [int] arithmetic. *)
Definition sumChanges (s : apiService) : Z :=
  fold_left
    (λ sum gp,
       if negb (String.eqb (GerritProject.Server gp) "go.googlesource.com") then sum
       else int (sum + GerritProject.NumLabelChanges gp))
    (Corpus.projects (c s)) 0.

Definition maxPollInterval : Z := 15 * Second.

Definition query : string := "label:Run-TryBot=1 label:TryBot-Result=0 status:open".

Definition setCommit (work : GerritTryWorkItem.t) (commit : string) : GerritTryWorkItem.t :=
  GerritTryWorkItem.mk (GerritTryWorkItem.Project work) (GerritTryWorkItem.Branch work)
    (GerritTryWorkItem.ChangeId work) commit (GerritTryWorkItem.GoCommit work)
    (GerritTryWorkItem.GoBranch work) (GerritTryWorkItem.GoVersion work).

Definition setGo (work : GerritTryWorkItem.t) (goCommit goBranch : list string)
    (goVersion : list MajorMinor.t) : GerritTryWorkItem.t :=
  GerritTryWorkItem.mk (GerritTryWorkItem.Project work) (GerritTryWorkItem.Branch work)
    (GerritTryWorkItem.ChangeId work) (GerritTryWorkItem.Commit work)
    goCommit goBranch goVersion.

(** [supportedReleases[0]] as a [MajorMinor]; the index panics on an empty
    slice. *)
Definition latestVersion (supportedReleases : list GoRelease.t) : option MajorMinor.t :=
  match supportedReleases with
  | [] => None
  | latest :: _ => Some (MajorMinor.mk (GoRelease.Major latest) (GoRelease.Minor latest))
  end.

(** The Go fields of a work item: the body of [if work.Project == "go"]
    and its [else]; [None] when an index panics. *)
Definition setGoFields (goProj : GerritProject.t) (supportedReleases : list GoRelease.t)
    (work : GerritTryWorkItem.t) : option GerritTryWorkItem.t :=
  if String.eqb (GerritTryWorkItem.Project work) "go" then
    if String.eqb (GerritTryWorkItem.Branch work) "master" then
      latest ← latestVersion supportedReleases;
      Some (setGo work (GerritTryWorkItem.GoCommit work) (GerritTryWorkItem.GoBranch work)
              [latest])
    else
      let '(major, minor, ok) := parseReleaseBranchVersion (GerritTryWorkItem.Branch work) in
      if ok then
        Some (setGo work (GerritTryWorkItem.GoCommit work) (GerritTryWorkItem.GoBranch work)
                [MajorMinor.mk major minor])
      else
        latest ← latestVersion supportedReleases;
        Some (setGo work (GerritTryWorkItem.GoCommit work) (GerritTryWorkItem.GoBranch work)
                [latest])
  else
    latest ← latestVersion supportedReleases;
    Some (setGo work
            ([GitHash_String (GerritProject.Ref goProj "refs/heads/master")]
               ++ map GoRelease.BranchCommit supportedReleases)
            (["master"] ++ map GoRelease.BranchName supportedReleases)
            ([latest]
               ++ map (λ r, MajorMinor.mk (GoRelease.Major r) (GoRelease.Minor r))
                    supportedReleases)).

(** One round of [for _, ci := range cis]: [Some None] when the change is
    skipped, [Some (Some work)] when [work] is appended, [None] when the
    round panics (a nil project or commit is read through). *)
Definition workFor (s : apiService) (goProj : GerritProject.t)
    (supportedReleases : list GoRelease.t) (ci : ChangeInfo.t)
    : option (option GerritTryWorkItem.t) :=
  match Corpus.Project (c s) "go.googlesource.com" (ChangeInfo.Project ci) with
  | None => None
  | Some gp =>
      match GerritProject.CL gp (int32 (ChangeInfo.ChangeNumber ci)) with
      | None => Some None
      | Some cl =>
          match tryWorkItem cl with
          | None => None
          | Some work =>
              let work :=
                if negb (String.eqb (ChangeInfo.CurrentRevision ci) "")
                then setCommit work (ChangeInfo.CurrentRevision ci) else work in
              match setGoFields goProj supportedReleases work with
              | None => None
              | Some work => Some (Some work)
              end
          end
      end
  end.

(** The whole loop: [res.Waiting] after it, or [None] when a round panics. *)
Fixpoint waitingFor (s : apiService) (goProj : GerritProject.t)
    (supportedReleases : list GoRelease.t) (cis : list ChangeInfo.t)
    (waiting : list GerritTryWorkItem.t) : option (list GerritTryWorkItem.t) :=
  match cis with
  | [] => Some waiting
  | ci :: rest =>
      match workFor s goProj supportedReleases ci with
      | None => None
      | Some None => waitingFor s goProj supportedReleases rest waiting
      | Some (Some work) => waitingFor s goProj supportedReleases rest (waiting ++ [work])
      end
  end.

(** The [less] closure of the sort of [res.Waiting]. *)
Definition commitLess (wi wj : GerritTryWorkItem.t) : bool :=
  (GerritTryWorkItem.Commit wi <? GerritTryWorkItem.Commit wj)%string.

(** [GoFindTryWork], with [now] the value of [time.Now()].  The methods of
    a nil [*maintner.GerritProject] read through the pointer: where
    [Project] returns nil for the go repository, or for the project of a
    change, the call panics. *)
Definition GoFindTryWork (s : apiService) (tryBotGerrit : GerritClient) (now : Time)
    (p : process) : outcome GoFindTryWorkResponse.t * process :=
  let sumChanges := sumChanges s in
  let tc := cache p in
  if bool_decide (tryCache.val tc ≠ None)
     && ((tryCache.forNumChanges tc =? sumChanges)
         || Time_After (tryCache.lastPoll tc) (Time_Add now (- maxPollInterval)))
  then (Return (tryCache.val tc) None, p)
  else
    let tc := tryCache.mk (tryCache.forNumChanges tc) now (tryCache.val tc) in
    let sent := query :: gerritQueries p in
    match tryBotGerrit query ["CURRENT_REVISION"; "CURRENT_COMMIT"] with
    | (_, Some err) => (Return None (Some err), mkProcess tc sent)
    | (cis, None) =>
        let tc := tryCache.mk sumChanges (tryCache.lastPoll tc) (tryCache.val tc) in
        match Corpus.Project (c s) "go.googlesource.com" "go" with
        | None => (Panic, mkProcess tc sent)
        | Some goProj =>
            match supportedGoReleases (GerritProject.nonChangeRefs goProj) with
            | (_, Some err) => (Return None (Some err), mkProcess tc sent)
            | (supportedReleases, None) =>
                match waitingFor s goProj supportedReleases cis [] with
                | None => (Panic, mkProcess tc sent)
                | Some waiting =>
                    let res := GoFindTryWorkResponse.mk (sort_Slice commitLess waiting) in
                    let tc := tryCache.mk (tryCache.forNumChanges tc) (tryCache.lastPoll tc)
                                (Some res) in
                    (Return (Some res) None, mkProcess tc sent)
                end
            end
        end
    end.

End api.

(** ** The version grammar *)

Definition digit (c : ascii) : option Z :=
  let n := Z.of_N (N_of_ascii c) in
  if (48 <=? n) && (n <=? 57) then Some (n - 48) else None.

Fixpoint number_from (acc : Z) (s : string) : option Z :=
  match s with
  | EmptyString => Some acc
  | String c s' =>
      match digit c with
      | Some d => number_from (10 * acc + d) s'
      | None => None
      end
  end.

(** A non-empty run of decimal digits. *)
Definition number (s : string) : option Z :=
  match s with
  | EmptyString => None
  | _ => number_from 0 s
  end.

(** The fields of [s] between its dots. *)
Fixpoint fields (s : string) : list string :=
  match s with
  | EmptyString => [EmptyString]
  | String c s' =>
      if Ascii.eqb c "."%char then EmptyString :: fields s'
      else match fields s' with
           | f :: fs => String c f :: fs
           | [] => [String c EmptyString]
           end
  end.

(** Modelled from the spec: [version.ParseTag], whose source file
    (maintapi/version) is not part of the tree.  It accepts goN, goN.M and
    goN.M.P, a missing .M or .P is 0, and anything outside that numeric
    grammar is rejected with [ok = false]. *)
Definition spec_ParseTag (tagName : string) : Z * Z * Z * bool :=
  if HasPrefix tagName "go" then
    match number <$> fields (slice_from 2 tagName) with
    | [Some n] => (n, 0, 0, true)
    | [Some n; Some m] => (n, m, 0, true)
    | [Some n; Some m; Some p] => (n, m, p, true)
    | _ => (0, 0, 0, false)
    end
  else (0, 0, 0, false).

(** Modelled from the spec: [version.ParseReleaseBranch], from the same
    absent package.  It accepts release-branch.goN and
    release-branch.goN.M, has no patch component, and rejects any other
    shape. *)
Definition spec_ParseReleaseBranch (branchName : string) : Z * Z * bool :=
  if HasPrefix branchName "release-branch.go" then
    match number <$> fields (slice_from (String.length "release-branch.go") branchName) with
    | [Some n] => (n, 0, true)
    | [Some n; Some m] => (n, m, true)
    | _ => (0, 0, false)
    end
  else (0, 0, false).

(** The imports with the parsers of the spec; a hash prints as itself. *)
Definition spec_imports : Imports :=
  {| version_ParseTag := spec_ParseTag;
     version_ParseReleaseBranch := spec_ParseReleaseBranch;
     GitHash_String := λ h, h |}.

Definition fixture (h1 h2 h3 h4 h5 : GitHash) : nonChangeRefLister :=
  [ ("refs/heads/release-branch.go1.11", h4);
    ("refs/heads/release-branch.go1.12", h5);
    ("refs/tags/go1.11", h1);
    ("refs/tags/go1.12", h2);
    ("refs/tags/go1.12.1", h3) ].


(** ** Statement vocabulary *)

(** [x] may stand before [y] in a slice sorted by [less]. *)
Definition inOrder {A} (less : A → A → bool) (x y : A) : Prop := less y x = false.

(** The work items in ascending order of their commit identifiers. *)
Definition commitLe (wi wj : GerritTryWorkItem.t) : Prop :=
  (GerritTryWorkItem.Commit wi <=? GerritTryWorkItem.Commit wj)%string = true.

Definition isHexDigit (ch : ascii) : bool :=
  let n := Z.of_N (N_of_ascii ch) in
  ((48 <=? n) && (n <=? 57)) || ((97 <=? n) && (n <=? 102)) || ((65 <=? n) && (n <=? 70)).

(** Exactly 40 hexadecimal characters. *)
Definition isHex40 (s : string) : bool :=
  (Z.of_nat (String.length s) =? 40) && forallb isHexDigit (list_ascii_of_string s).

(** [GoFindTryWork] misses the cache: it goes on to poll Gerrit. *)
Definition cacheMiss `{Imports} (s : apiService) (now : Time) (p : process) : Prop :=
  tryCache.val (cache p) = None ∨
  (tryCache.forNumChanges (cache p) ≠ sumChanges s ∧
   maxPollInterval ≤ now - tryCache.lastPoll (cache p)).

(** The processes a run of the service goes through: each call of
    [GoFindTryWork] may see another corpus, answer and time. *)
Inductive reachable `{Imports} : process → Prop :=
| reachable_start : reachable process_start
| reachable_call s tryBotGerrit now p r p' :
    reachable p →
    GoFindTryWork s tryBotGerrit now p = (r, p') →
    reachable p'.

(** The claim that a failed call leaves the cache entry as it was. *)
Definition failureLeavesCache `{Imports} (s : apiService) (tryBotGerrit : GerritClient)
    (now : Time) (p : process) : Prop :=
  ∀ res e p',
    GoFindTryWork s tryBotGerrit now p = (Return res (Some e), p') →
    cache p' = cache p.

(** The version of a ref that is a release tag. *)
Definition tagPair `{Imports} (ref : string) : option majorMinor.t :=
  if HasPrefix ref "refs/tags/go" then
    let '(major, minor, _, ok) := parseTagVersion (slice_from 10 ref) in
    if ok then Some (majorMinor.mk major minor) else None
  else None.

(** The version of a ref that is a release branch. *)
Definition branchPair `{Imports} (ref : string) : option majorMinor.t :=
  if HasPrefix ref "refs/heads/release-branch.go" then
    let '(major, minor, ok) := parseReleaseBranchVersion (slice_from 11 ref) in
    if ok then Some (majorMinor.mk major minor) else None
  else None.

(** The versions that are complete in a set of refs: those with both a
    tag and a release branch. *)
Definition completePairs `{Imports} (goProj : nonChangeRefLister) : gset majorMinor.t :=
  list_to_set (omap (λ rh, tagPair rh.1) goProj)
  ∩ list_to_set (omap (λ rh, branchPair rh.1) goProj).

Definition pairOf (r : GoRelease.t) : majorMinor.t :=
  majorMinor.mk (GoRelease.Major r) (GoRelease.Minor r).

(** [v] is a later version than [w]. *)
Definition newer (v w : majorMinor.t) : Prop :=
  majorMinor.Major w < majorMinor.Major v ∨
  (majorMinor.Major w = majorMinor.Major v ∧ majorMinor.Minor w < majorMinor.Minor v).

(** The fields [GoFindTryWork] asks Gerrit for. *)
Definition queryFields : list string := ["CURRENT_REVISION"; "CURRENT_COMMIT"].

(** A Gerrit that answers every query with the changes [cis]. *)
Definition gerritWith (cis : list ChangeInfo.t) : GerritClient := λ _ _, (cis, None).

(** Every cached result is sorted by commit. *)
Definition sortedCache (p : process) : Prop :=
  ∀ v, tryCache.val (cache p) = Some v → Sorted commitLe (GoFindTryWorkResponse.Waiting v).

(** The claim that the answer does not depend on the order in which
    Gerrit lists the changes. *)
Definition orderIndependent `{Imports} (s : apiService) (now : Time) (p : process)
    (cis1 cis2 : list ChangeInfo.t) : Prop :=
  cis1 ≡ₚ cis2 →
  fst (GoFindTryWork s (gerritWith cis1) now p)
  = fst (GoFindTryWork s (gerritWith cis2) now p).

(** The version of a change of the go repository on [branch], when
    [latest] is the latest supported release. *)
Definition branchVersion `{Imports} (latest : GoRelease.t) (branch : string) : MajorMinor.t :=
  if String.eqb branch "master" then
    MajorMinor.mk (GoRelease.Major latest) (GoRelease.Minor latest)
  else
    match parseReleaseBranchVersion branch with
    | (major, minor, true) => MajorMinor.mk major minor
    | _ => MajorMinor.mk (GoRelease.Major latest) (GoRelease.Minor latest)
    end.

(** Every work item of the go repository in [res] carries the one version
    of its branch. *)
Definition goVersionsFrom `{Imports} (latest : GoRelease.t)
    (res : GoFindTryWorkResponse.t) : Prop :=
  ∀ work, work ∈ GoFindTryWorkResponse.Waiting res →
    GerritTryWorkItem.Project work = "go" →
    GerritTryWorkItem.GoVersion work = [branchVersion latest (GerritTryWorkItem.Branch work)].

(** The work item the round for [ci] appends, if it appends one. *)
Definition appended `{Imports} (s : apiService) (goProj : GerritProject.t)
    (supportedReleases : list GoRelease.t) (ci : ChangeInfo.t)
    : option GerritTryWorkItem.t :=
  match workFor s goProj supportedReleases ci with
  | Some (Some work) => Some work
  | _ => None
  end.

(** ** Sample data *)

Definition hashA : string := "aaaaaaaaaaaaaaaaaaaaaaaaaaaaaaaaaaaaaaaa".
Definition hashB : string := "bbbbbbbbbbbbbbbbbbbbbbbbbbbbbbbbbbbbbbbb".
Definition hashZ : string := "zzzzzzzzzzzzzzzzzzzzzzzzzzzzzzzzzzzzzzzz".

(** A corpus that knows nothing. *)
Definition emptyCorpus : Corpus.t :=
  Corpus.mk (λ _, None) (λ _ _, false) [] (λ _ _, None).

(** A Gerrit that does not answer in time. *)
Definition gerritDown : GerritClient := λ _ _, ([], Some "context deadline exceeded").

(** Refs with one complete version: the tag and the branch of 1.12, and a
    tag of 1.13 without its branch. *)
Definition lonePair : nonChangeRefLister :=
  [ ("refs/heads/release-branch.go1.12", "b12");
    ("refs/tags/go1.12", "12");
    ("refs/tags/go1.13", "13") ].

(** The go project of the samples: the refs of the fixture and three
    changes, on master, on a release branch and on a development branch. *)
Definition sampleCL (n : Z) : option GerritCL.t :=
  if n =? 1 then
    Some (GerritCL.mk "go" "refs/heads/master" "I01" (Some (GitCommit.mk hashA "")))
  else if n =? 2 then
    Some (GerritCL.mk "go" "refs/heads/release-branch.go1.11" "I02"
            (Some (GitCommit.mk hashB "")))
  else if n =? 3 then
    Some (GerritCL.mk "go" "refs/heads/dev.link" "I03" (Some (GitCommit.mk hashZ "")))
  else None.

Definition goProject : GerritProject.t :=
  GerritProject.mk "go.googlesource.com" "go" 7
    (λ ref, if String.eqb ref "refs/heads/master" then hashA else "")
    (fixture "11" "12" "121" "b11" "b12") sampleCL.

Definition sampleCorpus : Corpus.t :=
  Corpus.mk
    (λ h, if String.eqb h hashA then Some (GitCommit.mk hashA "") else None)
    (λ _ _, true)
    [goProject]
    (λ server project,
       if String.eqb server "go.googlesource.com" && String.eqb project "go"
       then Some goProject else None).

(** Two open changes whose current revision is the same commit. *)
Definition changeOne : ChangeInfo.t := ChangeInfo.mk "go" 1 hashB.
Definition changeTwo : ChangeInfo.t := ChangeInfo.mk "go" 2 hashB.
Definition changeThree : ChangeInfo.t := ChangeInfo.mk "go" 3 "".

(** A process whose cache holds the (empty) result of a poll at time 50. *)
Definition polledProcess : process :=
  mkProcess (tryCache.mk 7 50 (Some (GoFindTryWorkResponse.mk []))) [query].

(** ** dashboard: the table of TestBuilderConfig

    [builders_test.go] states what the eligibility functions of package
    dashboard must answer on a table of builders and repositories. *)

Module BuilderConfigTest.

(** The bit mask [want] of what a row asserts. *)
Definition isTrybot : Z := Z.shiftl 1 0.
Definition notTrybot : Z := Z.shiftl 1 1.
Definition isBuilder : Z := Z.shiftl 1 2.
Definition notBuilder : Z := Z.shiftl 1 3.
Definition none : Z := notTrybot + notBuilder.
Definition both : Z := isTrybot + isBuilder.
Definition onlyPost : Z := notTrybot + isBuilder.

Record builderAndRepo := mkBuilderAndRepo {
  testName : string;
  builder : string;
  repo : string;
  branch : string;
  goBranch : string
}.

(** [strings.SplitN(s, "@", 2)] when [s] contains an at sign. *)
Fixpoint splitAt (s : string) : option (string * string) :=
  match s with
  | EmptyString => None
  | String ch s' =>
      if Ascii.eqb ch "@"%char then Some (EmptyString, s')
      else match splitAt s' with
           | Some (f0, f1) => Some (String ch f0, f1)
           | None => None
           end
  end.

Definition expandBranch (s : string) : string :=
  if HasPrefix s "go1." then String.append "release-branch." s
  else if HasPrefix s "1." then String.append "release-branch.go" s
  else s.

Definition b (builder repo : string) : builderAndRepo :=
  let '(builder', goBranch) :=
    match splitAt builder with
    | Some (f0, f1) => (f0, f1)
    | None => (builder, "master")
    end in
  let '(repo', branch) :=
    match splitAt repo with
    | Some (f0, f1) => (f0, f1)
    | None => (repo, "master")
    end in
  let branch := expandBranch branch in
  let goBranch := expandBranch goBranch in
  mkBuilderAndRepo (String.append builder (String.append "," repo)) builder' repo'
    (if String.eqb repo' "go" then goBranch else branch) goBranch.

Definition tests : list (builderAndRepo * Z) :=
  [
    (b "linux-amd64" "go", both);
    (b "linux-amd64" "net", both);
    (b "linux-amd64" "sys", both);
    (b "linux-amd64" "website", both);
    (b "linux-amd64-ssacheck" "net", none);
    (b "linux-amd64-ssacheck@go1.10" "net", none);
    (b "linux-amd64-noopt@go1.11" "net", none);
    (b "linux-386-387@go1.11" "net", none);
    (b "linux-386-387@go1.11" "go", onlyPost);
    (b "linux-386-387" "crypto", onlyPost);
    (b "linux-arm-arm5spacemonkey@go1.11" "net", none);
    (b "linux-arm-arm5spacemonkey@go1.12" "net", none);
    (b "android-amd64-emu" "go", both);
    (b "android-amd64-emu" "mobile", both);
    (b "android-amd64-emu" "mobile@1.10", none);
    (b "android-amd64-emu" "mobile@1.11", none);
    (b "android-amd64-emu@go1.10" "mobile", none);
    (b "android-amd64-emu@go1.11" "mobile", none);
    (b "android-amd64-emu@go1.12" "mobile", none);
    (b "android-amd64-emu@go1.13" "mobile", both);
    (b "android-amd64-emu" "mobile@1.13", both);
    (b "android-amd64-emu" "crypto", both);
    (b "android-amd64-emu" "net", both);
    (b "android-amd64-emu" "sync", both);
    (b "android-amd64-emu" "sys", both);
    (b "android-amd64-emu" "text", both);
    (b "android-amd64-emu" "time", both);
    (b "android-amd64-emu" "tools", both);
    (b "android-386-emu" "go", onlyPost);
    (b "android-386-emu" "mobile", onlyPost);
    (b "android-386-emu" "mobile@1.10", none);
    (b "android-386-emu" "mobile@1.11", none);
    (b "android-386-emu@go1.10" "mobile", none);
    (b "android-386-emu@go1.11" "mobile", none);
    (b "android-386-emu@go1.12" "mobile", none);
    (b "android-386-emu@go1.13" "mobile", onlyPost);
    (b "android-386-emu" "mobile@1.13", onlyPost);
    (b "linux-amd64" "net", both);
    (b "linux-amd64" "net@1.12", both);
    (b "linux-amd64@go1.12" "net@1.12", both);
    (b "linux-amd64" "net@1.11", both);
    (b "linux-amd64" "net@1.11", both);
    (b "linux-amd64" "net@1.10", none);
    (b "linux-amd64@go1.10" "net", none);
    (b "linux-amd64@go1.11" "net", both);
    (b "linux-amd64@go1.11" "net@1.11", both);
    (b "linux-amd64@go1.12" "net@1.12", both);
    (b "freebsd-386-10_3" "go", none);
    (b "freebsd-386-10_3" "net", none);
    (b "freebsd-amd64-10_3" "go", none);
    (b "freebsd-amd64-10_3" "net", none);
    (b "freebsd-amd64-11_1" "go", none);
    (b "freebsd-amd64-11_1" "net", none);
    (b "freebsd-amd64-10_3@go1.12" "go", both);
    (b "freebsd-amd64-10_3@go1.12" "net@1.12", both);
    (b "freebsd-amd64-10_3@go1.11" "go", both);
    (b "freebsd-amd64-10_3@go1.11" "net@1.11", both);
    (b "freebsd-amd64-11_1@go1.13" "go", none);
    (b "freebsd-amd64-11_1@go1.13" "net@1.12", none);
    (b "freebsd-amd64-11_1@go1.12" "go", isBuilder);
    (b "freebsd-amd64-11_1@go1.12" "net@1.12", isBuilder);
    (b "freebsd-amd64-11_1@go1.11" "go", isBuilder);
    (b "freebsd-amd64-11_1@go1.11" "net@1.11", isBuilder);
    (b "freebsd-amd64-12_0" "go", both);
    (b "freebsd-amd64-12_0" "net", both);
    (b "freebsd-386-12_0" "go", onlyPost);
    (b "freebsd-386-12_0" "net", onlyPost);
    (b "netbsd-amd64-8_0" "go", onlyPost);
    (b "netbsd-amd64-8_0" "net", onlyPost);
    (b "netbsd-386-8_0" "go", none);
    (b "netbsd-386-8_0" "net", none);
    (b "aix-ppc64" "go", onlyPost);
    (b "aix-ppc64" "net", onlyPost);
    (b "aix-ppc64" "mobile", none);
    (b "aix-ppc64" "exp", none);
    (b "aix-ppc64" "term", none);
    (b "aix-ppc64@go1.12" "go", onlyPost);
    (b "aix-ppc64@go1.12" "net", none);
    (b "aix-ppc64@go1.12" "mobile", none);
    (b "aix-ppc64@go1.13" "net", onlyPost);
    (b "aix-ppc64@go1.13" "mobile", none);
    (b "aix-ppc64@go1.11" "go", none);
    (b "aix-ppc64@go1.11" "net", none);
    (b "aix-ppc64@go1.11" "mobile", none);
    (b "illumos-amd64-joyent" "go", onlyPost);
    (b "illumos-amd64-joyent" "net", onlyPost);
    (b "illumos-amd64-joyent" "sys", onlyPost);
    (b "illumos-amd64-joyent@1.13" "go", onlyPost);
    (b "illumos-amd64-joyent@1.12" "go", none);
    (b "illumos-amd64-joyent@1.12" "sys", none);
    (b "illumos-amd64-joyent@1.11" "go", none);
    (b "illumos-amd64-joyent@1.11" "sys", none);
    (b "linux-amd64-nocgo" "mobile", none);
    (b "darwin-arm64-corellium" "go", isBuilder);
    (b "android-arm64-corellium" "go", isBuilder);
    (b "android-arm-corellium" "go", isBuilder);
    (b "linux-amd64-androidemu" "mobile", both);
    (b "android-amd64-emu" "mobile", isBuilder);
    (b "android-386-emu" "mobile", isBuilder);
    (b "android-amd64-emu" "net", isBuilder);
    (b "android-386-emu" "net", isBuilder);
    (b "android-amd64-emu" "go", isBuilder);
    (b "android-386-emu" "go", isBuilder);
    (b "nacl-386" "go", onlyPost);
    (b "nacl-386" "net", none);
    (b "nacl-amd64p32" "go", both);
    (b "nacl-amd64p32" "net", none);
    (b "js-wasm" "go", both);
    (b "js-wasm" "arch", onlyPost);
    (b "js-wasm" "crypto", onlyPost);
    (b "js-wasm" "sys", onlyPost);
    (b "js-wasm" "net", onlyPost);
    (b "js-wasm@go1.12" "net", none);
    (b "js-wasm" "benchmarks", none);
    (b "js-wasm" "debug", none);
    (b "js-wasm" "mobile", none);
    (b "js-wasm" "perf", none);
    (b "js-wasm" "talks", none);
    (b "js-wasm" "tools", none);
    (b "js-wasm" "tour", none);
    (b "js-wasm" "website", none);
    (b "linux-amd64-race" "go", both);
    (b "linux-amd64-race" "net", both);
    (b "windows-amd64-race" "go", onlyPost);
    (b "windows-amd64-race" "net", onlyPost);
    (b "freebsd-amd64-race" "go", onlyPost);
    (b "freebsd-amd64-race" "net", onlyPost);
    (b "darwin-amd64-race" "go", onlyPost);
    (b "darwin-amd64-race" "net", none);
    (b "linux-amd64-longtest" "go", onlyPost);
    (b "linux-amd64-longtest" "net", onlyPost);
    (b "linux-amd64-longtest@go1.12" "go", onlyPost);
    (b "linux-amd64-longtest@go1.12" "net", none);
    (b "linux-amd64" "exp", both);
    (b "linux-amd64-race" "exp", both);
    (b "linux-amd64-longtest" "exp", onlyPost);
    (b "windows-386-2008" "exp", both);
    (b "windows-amd64-2016" "exp", both);
    (b "darwin-amd64-10_12" "exp", onlyPost);
    (b "darwin-amd64-10_14" "exp", onlyPost);
    (b "freebsd-386-11_2" "exp", none);
    (b "freebsd-386-12_0" "exp", none);
    (b "freebsd-amd64-11_2" "exp", none);
    (b "freebsd-amd64-12_0" "exp", none);
    (b "openbsd-amd64-62" "exp", none);
    (b "openbsd-amd64-64" "exp", none);
    (b "js-wasm" "exp", none);
    (b "linux-amd64@go1.11" "exp", none);
    (b "linux-amd64@go1.12" "exp", none);
    (b "darwin-amd64-10_12" "net", onlyPost);
    (b "darwin-amd64-10_12@go1.11" "net", onlyPost);
    (b "darwin-amd64-10_11" "net", none);
    (b "darwin-amd64-10_11@go1.11" "net", none);
    (b "darwin-amd64-10_11@go1.12" "net", none);
    (b "darwin-386-10_14@go1.11" "net", none);
    (b "darwin-amd64-10_14" "go", onlyPost);
    (b "darwin-amd64-10_12" "go", onlyPost);
    (b "darwin-amd64-10_11" "go", onlyPost);
    (b "darwin-amd64-10_10" "go", none);
    (b "darwin-amd64-10_10@go1.12" "go", onlyPost);
    (b "darwin-amd64-10_10@go1.11" "go", onlyPost);
    (b "darwin-386-10_14" "go", onlyPost);
    (b "darwin-386-10_14@go1.12" "go", onlyPost);
    (b "darwin-386-10_14@go1.11" "go", onlyPost);
    (b "plan9-386" "go", none);
    (b "plan9-386" "net", none);
    (b "plan9-386@go1.11" "go", none);
    (b "plan9-386@go1.12" "go", none);
    (b "plan9-386@go1.11" "net", none);
    (b "plan9-386@go1.12" "net", none);
    (b "plan9-amd64-9front" "go", onlyPost);
    (b "plan9-amd64-9front@go1.11" "go", none);
    (b "plan9-amd64-9front@go1.12" "go", none);
    (b "plan9-amd64-9front" "net", onlyPost);
    (b "plan9-amd64-9front@go1.11" "net", none);
    (b "plan9-amd64-9front@go1.12" "net", none);
    (b "plan9-arm" "go", onlyPost);
    (b "plan9-arm@go1.11" "go", none);
    (b "plan9-arm@go1.12" "go", none);
    (b "plan9-arm" "net", onlyPost);
    (b "plan9-arm@go1.11" "net", none);
    (b "plan9-arm@go1.12" "net", none);
    (b "freebsd-386-11_2@go1.11" "net", none);
    (b "freebsd-386-12_0@go1.11" "net", none)
  ].

(** One round of the loop of the test, for eligibility functions given by
    the name of the builder: no [t.Errorf] is reached. *)
Definition rowPasses (BuildsRepoPostSubmit BuildsRepoTryBot : string → string → string → string → bool)
    (tt : builderAndRepo * Z) : bool :=
  let '(br, want) := tt in
  let gotPost := BuildsRepoPostSubmit (builder br) (repo br) (branch br) (goBranch br) in
  let gotTry := BuildsRepoTryBot (builder br) (repo br) (branch br) (goBranch br) in
  negb (negb (Z.land want isBuilder =? 0) && negb gotPost)
  && negb (negb (Z.land want notBuilder =? 0) && gotPost)
  && negb (negb (Z.land want isTrybot =? 0) && negb gotTry)
  && negb (negb (Z.land want notTrybot =? 0) && gotTry).

(** The answers the table itself gives: a bit is answered for a builder
    and a repository when some row about them asks for it. *)
Definition tableAnswer (bit : Z) (builder' repo' branch' goBranch' : string) : bool :=
  existsb
    (λ tt : builderAndRepo * Z,
       String.eqb (builder tt.1) builder' && String.eqb (repo tt.1) repo'
       && String.eqb (branch tt.1) branch' && String.eqb (goBranch tt.1) goBranch'
       && negb (Z.land tt.2 bit =? 0))
    tests.

End BuilderConfigTest.

(** ** The rest of api.go *)

Module ListGoReleasesResponse.
Record t := mk { Releases : list GoRelease.t }.
End ListGoReleasesResponse.

(** [ListGoReleases]; as in [GoFindTryWork], a nil go project panics. *)
Definition ListGoReleases `{Imports} (s : apiService)
    : outcome ListGoReleasesResponse.t :=
  match Corpus.Project (c s) "go.googlesource.com" "go" with
  | None => Panic
  | Some goProj =>
      match supportedGoReleases (GerritProject.nonChangeRefs goProj) with
      | (_, Some err) => Return None (Some err)
      | (releases, None) => Return (Some (ListGoReleasesResponse.mk releases)) None
      end
  end.

(** [strings.Contains(s, substr)]. *)
Fixpoint Contains (s substr : string) : bool :=
  HasPrefix s substr
  || match s with
     | EmptyString => false
     | String _ s' => Contains s' substr
     end.

(** [strings.IndexByte(s, ch)]: the index of the first [ch], or -1. *)
Fixpoint IndexByte (s : string) (ch : ascii) : Z :=
  match s with
  | EmptyString => -1
  | String x s' =>
      if Ascii.eqb x ch then 0
      else let i := IndexByte s' ch in if i =? -1 then -1 else i + 1
  end.

(** [s[:n]] for [n <= len(s)]. *)
Fixpoint slice_to (n : nat) (s : string) : string :=
  match n, s with
  | S n', String x s' => String x (slice_to n' s')
  | _, _ => EmptyString
  end.

Definition isStagingCommit (cl : GerritCL.t) : bool :=
  match GerritCL.Commit cl with
  | None => false
  | Some commit =>
      Contains (GitCommit.Msg commit) "DO NOT SUBMIT"
      && Contains (GitCommit.Msg commit) "STAGING"
  end.

Module GerritMessage.
Record t := mk { Version : Z; Message : string }.
End GerritMessage.

(** A [maintner.GerritCL] with the two fields that [tryBotStatus] reads
    beside those of [GerritCL.t]: its current patch set and its messages. *)
Module GerritCLMessages.
Record t := mk { CL : GerritCL.t; Version : Z; Messages : list GerritMessage.t }.
End GerritCLMessages.

(** The line of a message that [tryBotStatus] looks at. *)
Definition firstLine (message : string) : string :=
  let nl := IndexByte message "010"%char in
  if negb (nl =? -1) then slice_to (Z.to_nat nl) message else message.

(** One round of [for _, msg := range cl.Messages], on [(try, done)]. *)
Definition tryBotRound (version : Z) (st : bool * bool) (msg : GerritMessage.t)
    : bool * bool :=
  if negb (GerritMessage.Version msg =? version) then st
  else
    let firstLine := firstLine (GerritMessage.Message msg) in
    if negb (Contains firstLine "TryBot") then st
    else
      let try := if Contains firstLine "Run-TryBot+1" then true else st.1 in
      let try := if Contains firstLine "-Run-TryBot" then false else try in
      let done := if Contains firstLine "TryBot-Result" then true else st.2 in
      (try, done).

Definition tryBotStatus (cl : GerritCLMessages.t) (forStaging : bool) : bool * bool :=
  match GerritCL.Commit (GerritCLMessages.CL cl) with
  | None => (false, false)
  | Some _ =>
      if negb (Bool.eqb forStaging (isStagingCommit (GerritCLMessages.CL cl)))
      then (false, false)
      else fold_left (tryBotRound (GerritCLMessages.Version cl))
             (GerritCLMessages.Messages cl) (false, false)
  end.

(** ** dashboard: the checks of TestOSARCHAccessors and TestTrybots *)

Module OSARCHTest.

Definition valid (s : string) : bool :=
  negb (String.eqb s "") && negb (Contains s "-").

(** The condition under which the test reports nothing for a builder
    named [name] with accessors [os] and [arch]. *)
Definition accepted (name os arch : string) : bool :=
  let osArch := String.append os (String.append "-" arch) in
  negb (negb (valid os) || negb (valid arch)
        || negb (String.eqb name osArch || HasPrefix name (String.append osArch "-"))).

End OSARCHTest.

Module TrybotsTest.

(** The second loop of the subtest: the names of [got] reported as
    unexpected, and the map once they are all deleted from it. *)
Fixpoint checkGot (got : list string) (m : gmap string bool)
    : list string * gmap string bool :=
  match got with
  | [] => ([], m)
  | b :: rest =>
      let unexpected := match m !! b with None => [b] | Some _ => [] end in
      let '(more, m') := checkGot rest (delete b m) in
      ((unexpected ++ more)%list, m')
  end.

(** The body of the subtest: the names reported as unexpected and those
    reported as missing. *)
Definition report (got want : list string) : list string * list string :=
  let m := fold_left (λ m b, <[b:=true]> m) want (∅ : gmap string bool) in
  let '(unexpected, m') := checkGot got m in
  (unexpected, (map_to_list m').*1).

End TrybotsTest.

(** ** Statement vocabulary for the rest of the file *)

(** What [ForeachNonChangeRef] lists before a ref: the refs [seen] so far. *)
Definition tagRef `{Imports} (v : majorMinor.t) (patch : Z) (rh : string * GitHash) : Prop :=
  HasPrefix rh.1 "refs/tags/go" = true ∧
  parseTagVersion (slice_from 10 rh.1)
  = (majorMinor.Major v, majorMinor.Minor v, patch, true).

Definition branchRef `{Imports} (v : majorMinor.t) (rh : string * GitHash) : Prop :=
  HasPrefix rh.1 "refs/heads/release-branch.go" = true ∧
  parseReleaseBranchVersion (slice_from 11 rh.1)
  = (majorMinor.Major v, majorMinor.Minor v, true).

(** A ref that [supportedGoReleases] reads: a tag or a release branch
    with a version. *)
Definition isReleaseRef `{Imports} (rh : string * GitHash) : bool :=
  bool_decide (is_Some (tagPair rh.1)) || bool_decide (is_Some (branchPair rh.1)).

(** The tags in [ts] are the highest patches among the refs [seen], each
    with the name and hash of a ref that has that patch. *)
Definition tagsFrom `{Imports} (seen : nonChangeRefLister)
    (ts : gmap majorMinor.t tag.t) : Prop :=
  ∀ v,
    match ts !! v with
    | Some t =>
        (∃ ref hash, (ref, hash) ∈ seen ∧ tagRef v (tag.Patch t) (ref, hash) ∧
                     tag.Name t = slice_from 10 ref ∧ tag.Commit t = hash) ∧
        ∀ rh patch, rh ∈ seen → tagRef v patch rh → patch ≤ tag.Patch t
    | None => ∀ rh patch, rh ∈ seen → ¬ tagRef v patch rh
    end.

(** The branches in [bs] are release branches among the refs [seen]. *)
Definition branchesFrom `{Imports} (seen : nonChangeRefLister)
    (bs : gmap majorMinor.t branch.t) : Prop :=
  ∀ v b, bs !! v = Some b →
    ∃ ref hash, (ref, hash) ∈ seen ∧ branchRef v (ref, hash) ∧
                branch.Name b = slice_from 11 ref ∧ branch.Commit b = hash.

(** The vote that a message casts on the run of the trybots: a retraction
    ([Some false]), a request ([Some true]) or none. *)
Definition tryVote (version : Z) (msg : GerritMessage.t) : option bool :=
  if GerritMessage.Version msg =? version then
    let line := firstLine (GerritMessage.Message msg) in
    if Contains line "-Run-TryBot" then Some false
    else if Contains line "Run-TryBot+1" then Some true
    else None
  else None.

(** The message reports a result of the trybots on the patch set. *)
Definition reportsResult (version : Z) (msg : GerritMessage.t) : bool :=
  (GerritMessage.Version msg =? version)
  && Contains (firstLine (GerritMessage.Message msg)) "TryBot-Result".

(** The label changes of the projects of go.googlesource.com, unbounded. *)
Definition labelChanges (projects : list GerritProject.t) : Z :=
  foldr (λ gp sum,
           if String.eqb (GerritProject.Server gp) "go.googlesource.com"
           then GerritProject.NumLabelChanges gp + sum else sum)
    0 projects.

(** A corpus on which [GoFindTryWork] reads through no nil pointer: it has
    the go project, and the project of each change that Gerrit lists, and
    every change of those that it knows has its commit. *)
Definition readable (s : apiService) (cis : list ChangeInfo.t) : Prop :=
  is_Some (Corpus.Project (c s) "go.googlesource.com" "go") ∧
  Forall (λ ci,
            ∃ gp, Corpus.Project (c s) "go.googlesource.com" (ChangeInfo.Project ci) = Some gp ∧
                  ∀ cl, GerritProject.CL gp (int32 (ChangeInfo.ChangeNumber ci)) = Some cl →
                        is_Some (GerritCL.Commit cl))
    cis.


(** Sample: a change of a subrepository, and a corpus that has it. *)
Definition netCL (n : Z) : option GerritCL.t :=
  if n =? 5 then
    Some (GerritCL.mk "net" "refs/heads/master" "I05" (Some (GitCommit.mk hashA "")))
  else None.

Definition netProject : GerritProject.t :=
  GerritProject.mk "go.googlesource.com" "net" 3 (λ _, "") [] netCL.

Definition otherProject : GerritProject.t :=
  GerritProject.mk "example.googlesource.com" "x" 100 (λ _, "") [] (λ _, None).

Definition twoRepoCorpus : Corpus.t :=
  Corpus.mk (λ _, None) (λ _ _, false) [otherProject; goProject; netProject]
    (λ server project,
       if String.eqb server "go.googlesource.com" && String.eqb project "go"
       then Some goProject
       else if String.eqb server "go.googlesource.com" && String.eqb project "net"
       then Some netProject else None).

Definition changeNet : ChangeInfo.t := ChangeInfo.mk "net" 5 hashB.
Definition changeUnknown : ChangeInfo.t := ChangeInfo.mk "net" 6 hashB.

(** Sample: a corpus whose go project has one release only. *)
Definition lonePairCorpus : Corpus.t :=
  Corpus.mk (λ _, None) (λ _ _, false) []
    (λ server project,
       if String.eqb server "go.googlesource.com" && String.eqb project "go"
       then Some (GerritProject.mk "go.googlesource.com" "go" 0 (λ _, "") lonePair sampleCL)
       else None).

(** Sample: a change with votes on two patch sets. *)
Definition votedCL : GerritCLMessages.t :=
  GerritCLMessages.mk
    (GerritCL.mk "go" "refs/heads/master" "I01" (Some (GitCommit.mk hashA "fix")))
    2
    [ GerritMessage.mk 1 "Patch Set 1: TryBot-Result+1";
      GerritMessage.mk 2 "Patch Set 2: Run-TryBot+1";
      GerritMessage.mk 2 "Patch Set 2: -Run-TryBot";
      GerritMessage.mk 2 "Patch Set 2: Run-TryBot+1" ].

(** * Properties *)

(** ** sort.Slice *)

Section sort_Slice_facts.
Context {A : Type} (less : A → A → bool).
Hypothesis less_asym : ∀ x y, less x y = true → less y x = false.

Lemma sort_insert_Permutation x l : sort_insert less x l ≡ₚ x :: l.
Proof.
  induction l as [|y l IH]; simpl; [done|].
  destruct (less x y); [done|].
  rewrite IH. apply Permutation_swap.
Qed.

Lemma sort_fold_Permutation l acc :
  fold_left (λ acc x, sort_insert less x acc) l acc ≡ₚ acc ++ l.
Proof.
  revert acc. induction l as [|x l IH]; intros acc; simpl.
  - by rewrite app_nil_r.
  - rewrite IH, sort_insert_Permutation.
    by rewrite (Permutation_middle acc l x).
Qed.

Lemma sort_Slice_Permutation l : sort_Slice less l ≡ₚ l.
Proof. unfold sort_Slice. by rewrite sort_fold_Permutation. Qed.

Lemma sort_insert_HdRel z x l :
  inOrder less z x → HdRel (inOrder less) z l → HdRel (inOrder less) z (sort_insert less x l).
Proof.
  intros Hzx Hz. destruct l as [|y l]; simpl; [by constructor|].
  destruct (less x y); constructor; [done|]. by inversion Hz.
Qed.

Lemma sort_insert_Sorted x l :
  Sorted (inOrder less) l → Sorted (inOrder less) (sort_insert less x l).
Proof.
  induction 1 as [|y l Hl IH Hy]; simpl; [by repeat constructor|].
  destruct (less x y) eqn:Hxy.
  - repeat constructor; [done..|]. by apply less_asym.
  - constructor; [done|]. by apply sort_insert_HdRel.
Qed.

Lemma sort_fold_Sorted l acc :
  Sorted (inOrder less) acc →
  Sorted (inOrder less) (fold_left (λ acc x, sort_insert less x acc) l acc).
Proof.
  revert acc. induction l as [|x l IH]; intros acc Hacc; simpl; [done|].
  by apply IH, sort_insert_Sorted.
Qed.

Lemma sort_Slice_Sorted l : Sorted (inOrder less) (sort_Slice less l).
Proof. apply sort_fold_Sorted. constructor. Qed.

(** Where no two elements tie, the sorted slice is the same for every
    order of the input. *)
Lemma sort_Slice_order `{!Transitive (inOrder less)} l1 l2 :
  (∀ x y, x ∈ l1 → y ∈ l1 → inOrder less x y → inOrder less y x → x = y) →
  l1 ≡ₚ l2 →
  sort_Slice less l1 = sort_Slice less l2.
Proof.
  intros Htie Hperm.
  apply (Sorted_unique_strong (inOrder less)); try apply sort_Slice_Sorted.
  - intros x y Hx Hy. apply Htie.
    + by rewrite sort_Slice_Permutation in Hx.
    + by rewrite sort_Slice_Permutation, <- Hperm in Hy.
  - by rewrite !sort_Slice_Permutation.
Qed.

End sort_Slice_facts.

(** ** HasAncestor *)

(** C5, as stated, fails: a 40-byte argument that is not hexadecimal is not
    rejected.  On the corpus that knows no commit, forty letters z pass the
    validation and the call succeeds with [UnknownCommit]. *)
Lemma HasAncestor_accepts_non_hex :
  isHex40 hashZ = false ∧
  HasAncestor {| c := emptyCorpus |} (HasAncestorRequest.mk hashZ hashZ)
  = (Some (HasAncestorResponse.mk false true), None).
Proof. split; reflexivity. Qed.

(** C5, amended: the call fails, with no response, exactly when the length
    of either argument is not 40; for two arguments of length 40 it
    succeeds, with [UnknownCommit] set when the commit is not known and
    otherwise with [HasAncestor] telling whether the ancestor is a known
    commit that is a git ancestor of the commit. *)
Theorem HasAncestor_validation (s : apiService) (req : HasAncestorRequest.t) :
  let commit := HasAncestorRequest.Commit req in
  let ancestor := HasAncestorRequest.Ancestor req in
  (snd (HasAncestor s req) ≠ None ↔
     String.length commit ≠ 40%nat ∨ String.length ancestor ≠ 40%nat) ∧
  (snd (HasAncestor s req) ≠ None → fst (HasAncestor s req) = None) ∧
  (String.length commit = 40%nat → String.length ancestor = 40%nat →
   HasAncestor s req =
     (Some match Corpus.GitCommit (c s) commit with
           | None => HasAncestorResponse.mk false true
           | Some cm =>
               HasAncestorResponse.mk
                 match Corpus.GitCommit (c s) ancestor with
                 | Some a => Corpus.HasAncestor (c s) cm a
                 | None => false
                 end false
           end, None)).
Proof.
  intros commit ancestor. unfold HasAncestor. fold commit ancestor.
  destruct (Z.eqb_spec (Z.of_nat (String.length commit)) 40) as [Hc|Hc];
    destruct (Z.eqb_spec (Z.of_nat (String.length ancestor)) 40) as [Ha|Ha]; simpl.
  - destruct (Corpus.GitCommit (c s) commit) as [cm|];
      [destruct (Corpus.GitCommit (c s) ancestor)|]; simpl;
      (split; [split; [done|lia]|done]).
  - split; [split; [intros _; right; lia|done]|]. split; [done|lia].
  - split; [split; [intros _; left; lia|done]|]. split; [done|lia].
  - split; [split; [intros _; left; lia|done]|]. split; [done|lia].
Qed.

Lemma HasAncestor_validation_witness :
  String.length hashA = 40%nat ∧
  HasAncestor {| c := sampleCorpus |} (HasAncestorRequest.mk hashA hashA)
  = (Some (HasAncestorResponse.mk true false), None).
Proof.
  split; [reflexivity|].
  apply (proj2 (proj2 (HasAncestor_validation {| c := sampleCorpus |}
                         (HasAncestorRequest.mk hashA hashA)))); reflexivity.
Defined.

(** C10: a known 40-byte commit and a 40-byte ancestor the corpus does not
    know give a successful answer with both flags false. *)
Theorem HasAncestor_unknown_ancestor (s : apiService) (req : HasAncestorRequest.t)
    (cm : GitCommit.t) :
  String.length (HasAncestorRequest.Commit req) = 40%nat →
  String.length (HasAncestorRequest.Ancestor req) = 40%nat →
  Corpus.GitCommit (c s) (HasAncestorRequest.Commit req) = Some cm →
  Corpus.GitCommit (c s) (HasAncestorRequest.Ancestor req) = None →
  HasAncestor s req = (Some (HasAncestorResponse.mk false false), None).
Proof.
  intros Hc Ha Hcm Hanc. unfold HasAncestor.
  by rewrite Hc, Ha, Hcm, Hanc.
Qed.

Lemma HasAncestor_unknown_ancestor_witness :
  Corpus.GitCommit sampleCorpus hashB = None ∧
  HasAncestor {| c := sampleCorpus |} (HasAncestorRequest.mk hashA hashB)
  = (Some (HasAncestorResponse.mk false false), None).
Proof.
  split; [reflexivity|].
  apply (HasAncestor_unknown_ancestor {| c := sampleCorpus |}
           (HasAncestorRequest.mk hashA hashB) (GitCommit.mk hashA ""));
    reflexivity.
Defined.

(** ** GetRef *)

(** C8: an unknown project is an error with no response; a known project
    answers without error, with an empty value when the ref does not
    resolve and with the printed hash when it does. *)
Theorem GetRef_discriminates `{Imports} (s : apiService) (req : GetRefRequest.t) :
  let project := Corpus.Project (c s) (GetRefRequest.GerritServer req)
                   (GetRefRequest.GerritProject req) in
  (project = None → ∃ e, GetRef s req = (None, Some e)) ∧
  (∀ gp, project = Some gp →
     GerritProject.Ref gp (GetRefRequest.Ref req) = "" →
     GetRef s req = (Some (GetRefResponse.mk ""), None)) ∧
  (∀ gp, project = Some gp →
     GerritProject.Ref gp (GetRefRequest.Ref req) ≠ "" →
     GetRef s req
     = (Some (GetRefResponse.mk (GitHash_String (GerritProject.Ref gp (GetRefRequest.Ref req)))),
        None)).
Proof.
  intros project. unfold GetRef. fold project. repeat split.
  - intros ->. eauto.
  - intros gp -> ->. done.
  - intros gp -> Hne.
    destruct (String.eqb_spec (GerritProject.Ref gp (GetRefRequest.Ref req)) ""); done.
Qed.

Lemma GetRef_discriminates_witness :
  GetRef (H:=spec_imports) {| c := sampleCorpus |}
    (GetRefRequest.mk "go.googlesource.com" "go" "refs/heads/master")
  = (Some (GetRefResponse.mk hashA), None) ∧
  GetRef (H:=spec_imports) {| c := sampleCorpus |}
    (GetRefRequest.mk "go.googlesource.com" "go" "refs/heads/gone")
  = (Some (GetRefResponse.mk ""), None) ∧
  ∃ e, GetRef (H:=spec_imports) {| c := sampleCorpus |}
         (GetRefRequest.mk "go.googlesource.com" "net" "refs/heads/master")
       = (None, Some e).
Proof.
  split; [|split].
  - apply (proj2 (proj2 (GetRef_discriminates (H:=spec_imports) {| c := sampleCorpus |}
             (GetRefRequest.mk "go.googlesource.com" "go" "refs/heads/master"))) goProject);
      [reflexivity|discriminate].
  - apply (proj1 (proj2 (GetRef_discriminates (H:=spec_imports) {| c := sampleCorpus |}
             (GetRefRequest.mk "go.googlesource.com" "go" "refs/heads/gone"))) goProject);
      reflexivity.
  - apply (proj1 (GetRef_discriminates (H:=spec_imports) {| c := sampleCorpus |}
             (GetRefRequest.mk "go.googlesource.com" "net" "refs/heads/master")));
      reflexivity.
Defined.

(** ** GoFindTryWork: the cache *)

(** C4: with a cached result, an unchanged count of label changes or a
    poll less than 15 seconds old makes the call return that result and
    leave the process as it was: the cache is not written and no query is
    sent to Gerrit. *)
Theorem GoFindTryWork_cache_hit `{Imports} (s : apiService) (tryBotGerrit : GerritClient)
    (now : Time) (p : process) (v : GoFindTryWorkResponse.t) :
  tryCache.val (cache p) = Some v →
  tryCache.forNumChanges (cache p) = sumChanges s ∨
    now - tryCache.lastPoll (cache p) < 15 * Second →
  GoFindTryWork s tryBotGerrit now p = (Return (Some v) None, p).
Proof.
  intros Hv Hfresh. unfold GoFindTryWork. rewrite Hv.
  rewrite bool_decide_true by done.
  replace ((tryCache.forNumChanges (cache p) =? sumChanges s)
           || Time_After (tryCache.lastPoll (cache p)) (Time_Add now (- maxPollInterval)))
    with true; [done|].
  symmetry. apply orb_true_iff. destruct Hfresh as [Heq|Hlt].
  - left. by apply Z.eqb_eq.
  - right. unfold Time_After, Time_Add, maxPollInterval. apply Z.gtb_lt. lia.
Qed.

Lemma GoFindTryWork_cache_hit_witness :
  GoFindTryWork (H:=spec_imports) {| c := sampleCorpus |} gerritDown (50 + 60 * Second)
    polledProcess
  = (Return (Some (GoFindTryWorkResponse.mk [])) None, polledProcess) ∧
  GoFindTryWork (H:=spec_imports) {| c := emptyCorpus |} gerritDown (50 + 3 * Second)
    polledProcess
  = (Return (Some (GoFindTryWorkResponse.mk [])) None, polledProcess).
Proof.
  split.
  - apply (GoFindTryWork_cache_hit (H:=spec_imports)); [reflexivity|left; reflexivity].
  - apply (GoFindTryWork_cache_hit (H:=spec_imports)); [reflexivity|right; reflexivity].
Defined.

(** The condition under which the call goes on to poll. *)
Lemma cacheMiss_test `{Imports} (s : apiService) (now : Time) (p : process) :
  cacheMiss s now p ↔
  bool_decide (tryCache.val (cache p) ≠ None)
  && ((tryCache.forNumChanges (cache p) =? sumChanges s)
      || Time_After (tryCache.lastPoll (cache p)) (Time_Add now (- maxPollInterval)))
  = false.
Proof.
  unfold cacheMiss, Time_After, Time_Add.
  rewrite andb_false_iff, orb_false_iff, bool_decide_eq_false, Z.eqb_neq.
  rewrite Z.gtb_ltb, Z.ltb_ge.
  destruct (tryCache.val (cache p)) as [v|].
  - split; (intros [Hv|[Hn Ht]]; [by (discriminate Hv || destruct Hv)|]);
      right; (split; [done|lia]).
  - split; intros _; left; [by intros []|done].
Qed.

(** C1, as stated, fails: the time of the poll is written before the
    query is sent.  From the start of the process, against a Gerrit that
    times out, the call fails and the cache entry has changed. *)
Lemma GoFindTryWork_failure_writes_lastPoll :
  ¬ failureLeavesCache (H:=spec_imports) {| c := emptyCorpus |} gerritDown 100 process_start.
Proof.
  intros Hclaim.
  specialize (Hclaim None "context deadline exceeded"
                (mkProcess (tryCache.mk 0 100 None) [query]) eq_refl).
  discriminate Hclaim.
Qed.

(** C1, amended: a call that returns an error returns no response; the
    error is the one of the Gerrit query or, after a query that
    succeeded, the one of [supportedGoReleases]; the cached result is left
    as it was and the last-poll time is the time of the attempt.  When
    the query is what failed, the snapshot of the change count is left as
    it was too. *)
Theorem GoFindTryWork_failure `{Imports} (s : apiService) (tryBotGerrit : GerritClient)
    (now : Time) (p p' : process) (res : option GoFindTryWorkResponse.t) (e : error) :
  GoFindTryWork s tryBotGerrit now p = (Return res (Some e), p') →
  res = None ∧
  tryCache.val (cache p') = tryCache.val (cache p) ∧
  tryCache.lastPoll (cache p') = now ∧
  ((snd (tryBotGerrit query ["CURRENT_REVISION"; "CURRENT_COMMIT"]) = Some e ∧
    tryCache.forNumChanges (cache p') = tryCache.forNumChanges (cache p)) ∨
   (snd (tryBotGerrit query ["CURRENT_REVISION"; "CURRENT_COMMIT"]) = None ∧
    ∃ goProj, Corpus.Project (c s) "go.googlesource.com" "go" = Some goProj ∧
              snd (supportedGoReleases (GerritProject.nonChangeRefs goProj)) = Some e)).
Proof.
  unfold GoFindTryWork.
  destruct (bool_decide _ && _); [intros [=]|].
  destruct (tryBotGerrit _ _) as [cis [err|]]; simpl.
  { intros [= <- <- <-]. simpl. repeat split; try done. by left. }
  destruct (Corpus.Project _ _ _) as [goProj|]; [|intros [=]].
  destruct (supportedGoReleases _) as [rs [err|]] eqn:Hrs.
  { intros [= <- <- <-]. simpl. repeat split; try done.
    right. split; [done|]. exists goProj. by rewrite Hrs. }
  destruct (waitingFor _ _ _ _ _); intros [=].
Qed.

Lemma GoFindTryWork_failure_witness :
  GoFindTryWork (H:=spec_imports) {| c := emptyCorpus |} gerritDown 100 process_start
  = (Return None (Some "context deadline exceeded"),
     mkProcess (tryCache.mk 0 100 None) [query]) ∧
  tryCache.val (cache (mkProcess (tryCache.mk 0 100 None) [query]))
  = tryCache.val (cache process_start).
Proof.
  split; [reflexivity|].
  apply (GoFindTryWork_failure (H:=spec_imports) {| c := emptyCorpus |} gerritDown 100
           process_start (mkProcess (tryCache.mk 0 100 None) [query]) None
           "context deadline exceeded" eq_refl).
Defined.

(** ** The order of commit identifiers *)

Lemma Ascii_compare_refl (a : ascii) : Ascii.compare a a = Eq.
Proof. apply N.compare_refl. Qed.

Lemma Ascii_compare_Lt_trans (a b d : ascii) :
  Ascii.compare a b = Lt → Ascii.compare b d = Lt → Ascii.compare a d = Lt.
Proof. unfold Ascii.compare. rewrite !N.compare_lt_iff. apply N.lt_trans. Qed.

Lemma String_compare_refl (a : string) : String.compare a a = Eq.
Proof. induction a as [|x a IH]; simpl; [done|]. by rewrite Ascii_compare_refl. Qed.

Lemma String_compare_Lt_trans (a b d : string) :
  String.compare a b = Lt → String.compare b d = Lt → String.compare a d = Lt.
Proof.
  revert b d. induction a as [|x a IH]; intros [|y b] [|z d]; simpl; try done.
  destruct (Ascii.compare x y) eqn:Hxy; [| |done];
    destruct (Ascii.compare y z) eqn:Hyz; try done.
  - apply Ascii.compare_eq_iff in Hxy as ->. rewrite Hyz. apply IH.
  - apply Ascii.compare_eq_iff in Hxy as ->. by rewrite Hyz.
  - apply Ascii.compare_eq_iff in Hyz as <-. by rewrite Hxy.
  - by rewrite (Ascii_compare_Lt_trans x y z).
Qed.

Lemma String_leb_compare (a b : string) :
  (a <=? b)%string = true ↔ String.compare b a ≠ Lt.
Proof.
  unfold String.leb. rewrite (String.compare_antisym b a).
  destruct (String.compare a b); simpl; split; done.
Qed.

Lemma String_leb_trans (a b d : string) :
  (a <=? b)%string = true → (b <=? d)%string = true → (a <=? d)%string = true.
Proof.
  rewrite !String_leb_compare. intros Hba Hdb Hda. apply Hba.
  destruct (String.compare d b) eqn:Hdb'; [|by eapply String_compare_Lt_trans|].
  - by apply String.compare_eq_iff in Hdb' as ->.
  - rewrite String.compare_antisym in Hdb'.
    destruct (String.compare b d) eqn:Hbd; try done.
    rewrite String.compare_antisym in Hba.
    destruct (String.compare a b) eqn:Hab; simpl in Hba; try done.
    + apply String.compare_eq_iff in Hab as ->.
      rewrite String.compare_antisym, Hbd in Hda. done.
    + pose proof (String_compare_Lt_trans a b d Hab Hbd) as Had.
      rewrite String.compare_antisym, Had in Hda. done.
Qed.

Lemma commitLess_asym (wi wj : GerritTryWorkItem.t) :
  commitLess wi wj = true → commitLess wj wi = false.
Proof.
  unfold commitLess, String.ltb. rewrite (String.compare_antisym (GerritTryWorkItem.Commit wj)).
  by destruct (String.compare _ _).
Qed.

Lemma inOrder_commitLess (wi wj : GerritTryWorkItem.t) :
  inOrder commitLess wi wj ↔ commitLe wi wj.
Proof.
  unfold inOrder, commitLess, commitLe. rewrite String_leb_compare.
  unfold String.ltb. destruct (String.compare _ _); split; done.
Qed.

Lemma inOrder_commitLess_trans : Transitive (inOrder commitLess).
Proof.
  intros x y z. rewrite !inOrder_commitLess. apply String_leb_trans.
Qed.

Lemma inOrder_commitLess_tie (wi wj : GerritTryWorkItem.t) :
  inOrder commitLess wi wj → inOrder commitLess wj wi →
  GerritTryWorkItem.Commit wi = GerritTryWorkItem.Commit wj.
Proof. rewrite !inOrder_commitLess. apply String.leb_antisym. Qed.

Lemma Sorted_weaken {A} (R1 R2 : relation A) (l : list A) :
  (∀ x y, R1 x y → R2 x y) → Sorted R1 l → Sorted R2 l.
Proof.
  intros HR. induction 1 as [|x l Hl IH Hx]; constructor; [done|].
  destruct Hx; constructor. by apply HR.
Qed.

Lemma Sorted_commitLe (l : list GerritTryWorkItem.t) :
  Sorted commitLe (sort_Slice commitLess l).
Proof.
  apply (Sorted_weaken (inOrder commitLess)); [|apply sort_Slice_Sorted, commitLess_asym].
  intros x y. by rewrite inOrder_commitLess.
Qed.

(** ** GoFindTryWork: assembling the work list *)

Lemma waitingFor_Some `{Imports} (s : apiService) (goProj : GerritProject.t)
    (rs : list GoRelease.t) (cis : list ChangeInfo.t)
    (acc waiting : list GerritTryWorkItem.t) :
  waitingFor s goProj rs cis acc = Some waiting ↔
  Forall (λ ci, is_Some (workFor s goProj rs ci)) cis ∧
  waiting = (acc ++ omap (appended s goProj rs) cis)%list.
Proof.
  revert acc. induction cis as [|ci cis IH]; intros acc; simpl.
  - rewrite app_nil_r. split; [intros [= <-]; by split|intros [_ ->]; done].
  - unfold appended at 1. rewrite Forall_cons.
    destruct (workFor s goProj rs ci) as [[work|]|] eqn:Hci.
    + rewrite IH, <- (assoc_L (++)). simpl.
      split; [intros [? ->]|intros [[_ ?] ->]]; by repeat split.
    + rewrite IH. split; [intros [? ->]|intros [[_ ?] ->]]; by repeat split.
    + split; [done|]. by intros [[[? [=]] _] _].
Qed.

(** The rounds do not influence one another: listing the changes in
    another order permutes the work list. *)
Lemma waitingFor_Permutation `{Imports} (s : apiService) (goProj : GerritProject.t)
    (rs : list GoRelease.t) (cis1 cis2 : list ChangeInfo.t)
    (waiting1 : list GerritTryWorkItem.t) :
  cis1 ≡ₚ cis2 →
  waitingFor s goProj rs cis1 [] = Some waiting1 →
  ∃ waiting2, waitingFor s goProj rs cis2 [] = Some waiting2 ∧ waiting1 ≡ₚ waiting2.
Proof.
  intros Hperm [Hall ->]%waitingFor_Some.
  exists (omap (appended s goProj rs) cis2). split.
  - apply waitingFor_Some. split; [|done].
    rewrite Forall_forall in Hall |- *. intros ci Hci. apply Hall.
    by rewrite Hperm.
  - simpl. by apply omap_Permutation.
Qed.

Lemma NoDup_fmap_eq {A B} (f : A → B) (l : list A) (x y : A) :
  NoDup (f <$> l) → x ∈ l → y ∈ l → f x = f y → x = y.
Proof.
  induction l as [|z l IH]; simpl; [by intros _ ?%elem_of_nil|].
  rewrite NoDup_cons, !elem_of_cons. intros [Hz Hl] [->|Hx] [->|Hy] Hf; auto.
  - destruct Hz. rewrite Hf. by apply list_elem_of_fmap_2.
  - destruct Hz. rewrite <- Hf. by apply list_elem_of_fmap_2.
Qed.

(** A successful call either answers from the cache or has polled. *)
Lemma GoFindTryWork_success `{Imports} (s : apiService) (tryBotGerrit : GerritClient)
    (now : Time) (p p' : process) (res : GoFindTryWorkResponse.t) :
  GoFindTryWork s tryBotGerrit now p = (Return (Some res) None, p') →
  (¬ cacheMiss s now p ∧ tryCache.val (cache p) = Some res ∧ p' = p) ∨
  (cacheMiss s now p ∧
   ∃ cis goProj rs waiting,
     tryBotGerrit query queryFields = (cis, None) ∧
     Corpus.Project (c s) "go.googlesource.com" "go" = Some goProj ∧
     supportedGoReleases (GerritProject.nonChangeRefs goProj) = (rs, None) ∧
     waitingFor s goProj rs cis [] = Some waiting ∧
     res = GoFindTryWorkResponse.mk (sort_Slice commitLess waiting) ∧
     p' = mkProcess (tryCache.mk (sumChanges s) now (Some res)) (query :: gerritQueries p)).
Proof.
  unfold GoFindTryWork, queryFields.
  destruct (bool_decide _ && _) eqn:Htest.
  { intros [= Hv <-]. left. split; [|done].
    rewrite cacheMiss_test. by rewrite Htest. }
  apply cacheMiss_test in Htest.
  destruct (tryBotGerrit _ _) as [cis [err|]]; [intros [=]|].
  destruct (Corpus.Project _ _ _) as [goProj|]; [|intros [=]].
  destruct (supportedGoReleases _) as [rs [err|]] eqn:Hrs; [intros [=]|].
  destruct (waitingFor _ _ _ _ _) as [waiting|] eqn:Hw; intros [= <- <-].
  right. split; [done|]. by exists cis, goProj, rs, waiting.
Qed.

Lemma reachable_sortedCache `{Imports} (p : process) : reachable p → sortedCache p.
Proof.
  induction 1 as [|s g now p r p' _ IH Hcall]; [by intros v [=]|].
  revert Hcall. unfold GoFindTryWork.
  destruct (bool_decide _ && _); [by intros [= _ <-]|].
  destruct (g _ _) as [cis [err|]]; [by intros [= _ <-]|].
  destruct (Corpus.Project _ _ _) as [goProj|]; [|by intros [= _ <-]].
  destruct (supportedGoReleases _) as [rs [err|]]; [by intros [= _ <-]|].
  destruct (waitingFor _ _ _ _ _) as [waiting|]; intros [= _ <-]; [|done].
  intros v [= <-]. apply Sorted_commitLe.
Qed.

(** Two changes whose current revision is the same commit tie in the
    sort: the answer then depends on the order in which Gerrit lists
    them. *)
Lemma GoFindTryWork_order_of_ties :
  ¬ orderIndependent (H:=spec_imports) {| c := sampleCorpus |} 100 process_start
      [changeOne; changeTwo] [changeTwo; changeOne].
Proof.
  intros Hclaim. specialize (Hclaim (Permutation_swap _ _ _)).
  vm_compute in Hclaim. discriminate Hclaim.
Qed.

(** C7: the code misses the order that it sets out to give (its comment
    reads "Sort in some stable order").  Gerrit lists two open changes
    whose current revision is one commit: listed as change 1, change 2 the
    answer has the work items I01, I02, and listed as change 2, change 1 it
    has I02, I01, both times at that one commit.  The order of the answer
    is the order of the listing. *)
Theorem GoFindTryWork_ties_follow_listing :
  (∃ res p',
     GoFindTryWork (H:=spec_imports) {| c := sampleCorpus |}
       (gerritWith [changeOne; changeTwo]) 100 process_start
     = (Return (Some res) None, p') ∧
     GerritTryWorkItem.ChangeId <$> GoFindTryWorkResponse.Waiting res = ["I01"; "I02"] ∧
     GerritTryWorkItem.Commit <$> GoFindTryWorkResponse.Waiting res = [hashB; hashB]) ∧
  (∃ res p',
     GoFindTryWork (H:=spec_imports) {| c := sampleCorpus |}
       (gerritWith [changeTwo; changeOne]) 100 process_start
     = (Return (Some res) None, p') ∧
     GerritTryWorkItem.ChangeId <$> GoFindTryWorkResponse.Waiting res = ["I02"; "I01"] ∧
     GerritTryWorkItem.Commit <$> GoFindTryWorkResponse.Waiting res = [hashB; hashB]).
Proof.
  split; eexists _, _; (split; [vm_compute; reflexivity|]); split; reflexivity.
Qed.

(** X18: every work list the service returns is in ascending order
    of commit identifier; and when the commit identifiers of the work
    items are pairwise distinct, the call returns the same list, and
    leaves the same process, for every order in which Gerrit lists the
    changes. *)
Theorem GoFindTryWork_sorted `{Imports} :
  (∀ s tryBotGerrit now p res p',
     reachable p →
     GoFindTryWork s tryBotGerrit now p = (Return (Some res) None, p') →
     Sorted commitLe (GoFindTryWorkResponse.Waiting res)) ∧
  (∀ s gerrit1 gerrit2 now p cis1 cis2 res p',
     gerrit1 query queryFields = (cis1, None) →
     gerrit2 query queryFields = (cis2, None) →
     cis1 ≡ₚ cis2 →
     GoFindTryWork s gerrit1 now p = (Return (Some res) None, p') →
     NoDup (GerritTryWorkItem.Commit <$> GoFindTryWorkResponse.Waiting res) →
     GoFindTryWork s gerrit2 now p = (Return (Some res) None, p')).
Proof.
  split.
  - intros s g now p res p' Hp Hcall.
    assert (reachable p') as Hp' by (by eapply reachable_call).
    apply reachable_sortedCache in Hp'. apply Hp'.
    apply GoFindTryWork_success in Hcall
      as [(_ & Hv & ->)|(_ & ? & ? & ? & ? & _ & _ & _ & _ & _ & ->)]; done.
  - intros s g1 g2 now p cis1 cis2 res p' Hg1 Hg2 Hperm Hcall Hdistinct.
    unfold queryFields in Hg1, Hg2.
    revert Hcall. unfold GoFindTryWork. rewrite Hg1, Hg2.
    destruct (bool_decide _ && _); [done|].
    destruct (Corpus.Project _ _ _) as [goProj|]; [|done].
    destruct (supportedGoReleases _) as [rs [err|]]; [done|].
    destruct (waitingFor s goProj rs cis1 []) as [waiting1|] eqn:Hw1; [|done].
    destruct (waitingFor_Permutation _ _ _ _ _ _ Hperm Hw1) as (waiting2 & -> & Hw).
    intros [= <- <-]. simpl in Hdistinct.
    rewrite (sort_Slice_Permutation commitLess waiting1) in Hdistinct.
    rewrite (sort_Slice_order commitLess commitLess_asym
               (Transitive0:=inOrder_commitLess_trans) waiting1 waiting2); [done| |done].
    intros x y Hx Hy Hxy Hyx.
    apply (NoDup_fmap_eq GerritTryWorkItem.Commit waiting1); [done..|].
    by apply inOrder_commitLess_tie.
Qed.

Lemma GoFindTryWork_sorted_witness :
  ∃ res p',
    GoFindTryWork (H:=spec_imports) {| c := sampleCorpus |}
      (gerritWith [changeThree; changeOne]) 100 process_start
    = (Return (Some res) None, p') ∧
    Sorted commitLe (GoFindTryWorkResponse.Waiting res) ∧
    GoFindTryWork (H:=spec_imports) {| c := sampleCorpus |}
      (gerritWith [changeOne; changeThree]) 100 process_start
    = (Return (Some res) None, p').
Proof.
  eexists _, _. split; [vm_compute; reflexivity|]. split.
  - apply (proj1 (GoFindTryWork_sorted (H:=spec_imports)) {| c := sampleCorpus |}
             (gerritWith [changeThree; changeOne]) 100 process_start _ _
             reachable_start eq_refl).
  - apply (proj2 (GoFindTryWork_sorted (H:=spec_imports)) {| c := sampleCorpus |}
             (gerritWith [changeThree; changeOne]) (gerritWith [changeOne; changeThree])
             100 process_start [changeThree; changeOne] [changeOne; changeThree]);
      [reflexivity|reflexivity|apply Permutation_swap|reflexivity|].
    apply (bool_decide_unpack _). vm_compute. exact I.
Defined.

(** ** GoFindTryWork: the versions of a change of the go repository *)

Lemma supportedGoReleases_two `{Imports} (goProj : nonChangeRefLister)
    (rs : list GoRelease.t) :
  supportedGoReleases goProj = (rs, None) → ∃ latest previous, rs = [latest; previous].
Proof.
  unfold supportedGoReleases.
  destruct (ForeachNonChangeRef goProj visitRef _) as [m [err|]]; [intros [=]|].
  simpl. destruct (Z.ltb_spec (Z.of_nat (length (allReleases m))) 2) as [|Hlen];
    [intros [=]|].
  intros [= <-]. destruct (allReleases m) as [|r1 [|r2 rest]]; simpl in *; [lia..|].
  by exists r1, r2.
Qed.

Lemma setGoFields_go `{Imports} (goProj : GerritProject.t) (latest : GoRelease.t)
    (rest : list GoRelease.t) (work0 work : GerritTryWorkItem.t) :
  setGoFields goProj (latest :: rest) work0 = Some work →
  GerritTryWorkItem.Project work = "go" →
  GerritTryWorkItem.GoVersion work
  = [branchVersion latest (GerritTryWorkItem.Branch work)].
Proof.
  unfold setGoFields, branchVersion. simpl.
  destruct (String.eqb_spec (GerritTryWorkItem.Project work0) "go") as [Hgo|Hsub].
  - destruct (String.eqb (GerritTryWorkItem.Branch work0) "master") eqn:Hmaster.
    + intros [= <-] _. simpl. by rewrite Hmaster.
    + destruct (parseReleaseBranchVersion (GerritTryWorkItem.Branch work0))
        as [[major minor] [|]] eqn:Hparse;
        intros [= <-] _; simpl; by rewrite Hmaster, Hparse.
  - intros [= <-]. simpl. done.
Qed.

Lemma appended_go `{Imports} (s : apiService) (goProj : GerritProject.t)
    (latest : GoRelease.t) (rest : list GoRelease.t) (ci : ChangeInfo.t)
    (work : GerritTryWorkItem.t) :
  appended s goProj (latest :: rest) ci = Some work →
  GerritTryWorkItem.Project work = "go" →
  GerritTryWorkItem.GoVersion work
  = [branchVersion latest (GerritTryWorkItem.Branch work)].
Proof.
  unfold appended, workFor.
  destruct (Corpus.Project _ _ _) as [gp|]; [|done].
  destruct (GerritProject.CL _ _) as [cl|]; [|done].
  destruct (tryWorkItem cl) as [work0|]; [|done].
  destruct (setGoFields _ _ _) as [work1|] eqn:Hset; [|done].
  intros [= <-]. by eapply setGoFields_go.
Qed.

Lemma GoFindTryWork_poll_go_version `{Imports} (s : apiService)
    (tryBotGerrit : GerritClient) (now : Time) (p p' : process)
    (res : GoFindTryWorkResponse.t) :
  cacheMiss s now p →
  GoFindTryWork s tryBotGerrit now p = (Return (Some res) None, p') →
  ∃ goProj latest previous,
    Corpus.Project (c s) "go.googlesource.com" "go" = Some goProj ∧
    supportedGoReleases (GerritProject.nonChangeRefs goProj) = ([latest; previous], None) ∧
    goVersionsFrom latest res.
Proof.
  intros Hmiss Hcall.
  apply GoFindTryWork_success in Hcall
    as [(Hhit & _)|(_ & cis & goProj & rs & waiting & _ & HgoProj & Hrs & Hw & -> & _)];
    [done|].
  destruct (supportedGoReleases_two _ _ Hrs) as (latest & previous & ->).
  exists goProj, latest, previous. repeat split; [done..|].
  intros work Hwork Hgo. simpl in Hwork.
  rewrite sort_Slice_Permutation in Hwork.
  apply waitingFor_Some in Hw as [_ ->]. simpl in Hwork.
  apply list_elem_of_omap in Hwork as (ci & _ & Hci).
  by eapply appended_go.
Qed.

(** A call that returns no response leaves the cached result as it was. *)
Lemma GoFindTryWork_keeps_val `{Imports} (s : apiService) (tryBotGerrit : GerritClient)
    (now : Time) (p p' : process) (r : outcome GoFindTryWorkResponse.t) :
  GoFindTryWork s tryBotGerrit now p = (r, p') →
  (∀ res, r ≠ Return (Some res) None) →
  tryCache.val (cache p') = tryCache.val (cache p).
Proof.
  unfold GoFindTryWork. intros Hcall Hr. revert Hcall.
  destruct (bool_decide _ && _); [by intros [= _ <-]|].
  destruct (tryBotGerrit _ _) as [cis [err|]]; [by intros [= _ <-]|].
  destruct (Corpus.Project _ _ _) as [goProj|]; [|by intros [= _ <-]].
  destruct (supportedGoReleases _) as [rs [err|]]; [by intros [= _ <-]|].
  destruct (waitingFor _ _ _ _ _) as [waiting|]; [|by intros [= _ <-]].
  intros [= <- _]. by destruct (Hr _ eq_refl).
Qed.

Lemma reachable_goVersions `{Imports} (p : process) :
  reachable p →
  ∀ v, tryCache.val (cache p) = Some v → ∃ latest, goVersionsFrom latest v.
Proof.
  induction 1 as [|s g now p r p' _ IH Hcall]; [by intros v [=]|].
  intros v Hv.
  assert ((∃ res, r = Return (Some res) None) ∨ ∀ res, r ≠ Return (Some res) None)
    as [[res ->]|Hr] by (destruct r as [[res|] [err|]|]; eauto).
  - pose proof Hcall as Hcall'.
    apply GoFindTryWork_success in Hcall'
      as [(_ & Hres & ->)|(Hmiss & _ & _ & _ & _ & _ & _ & _ & _ & _ & ->)];
      [by apply IH|].
    simpl in Hv. injection Hv as <-.
    destruct (GoFindTryWork_poll_go_version _ _ _ _ _ _ Hmiss Hcall)
      as (_ & latest & _ & _ & _ & Hgo).
    by exists latest.
  - apply IH. rewrite <- Hv. symmetry. by eapply GoFindTryWork_keeps_val.
Qed.

(** C6: a call that polls and succeeds has resolved two supported
    releases, and each work item of the go repository in its answer has
    the single version of its branch: that of the latest release on
    master, the one parsed from the name of a release branch, and that of
    the latest release on any other branch.  The same holds, for the
    latest release at the time of the poll, of every answer the service
    gives from its cache. *)
Theorem GoFindTryWork_go_version `{Imports} :
  (∀ s tryBotGerrit now p res p',
     cacheMiss s now p →
     GoFindTryWork s tryBotGerrit now p = (Return (Some res) None, p') →
     ∃ goProj latest previous,
       Corpus.Project (c s) "go.googlesource.com" "go" = Some goProj ∧
       supportedGoReleases (GerritProject.nonChangeRefs goProj)
       = ([latest; previous], None) ∧
       goVersionsFrom latest res) ∧
  (∀ s tryBotGerrit now p res p',
     reachable p →
     GoFindTryWork s tryBotGerrit now p = (Return (Some res) None, p') →
     ∃ latest, goVersionsFrom latest res).
Proof.
  split; [intros; by eapply GoFindTryWork_poll_go_version|].
  intros s g now p res p' Hp Hcall.
  apply (reachable_goVersions p'); [by eapply reachable_call|].
  apply GoFindTryWork_success in Hcall
    as [(_ & Hv & ->)|(_ & ? & ? & ? & ? & _ & _ & _ & _ & _ & ->)]; done.
Qed.

Lemma GoFindTryWork_go_version_witness :
  ∃ res p',
    GoFindTryWork (H:=spec_imports) {| c := sampleCorpus |}
      (gerritWith [changeThree; changeTwo; changeOne]) 100 process_start
    = (Return (Some res) None, p') ∧
    ∃ goProj latest previous,
      Corpus.Project sampleCorpus "go.googlesource.com" "go" = Some goProj ∧
      supportedGoReleases (H:=spec_imports) (GerritProject.nonChangeRefs goProj)
      = ([latest; previous], None) ∧
      goVersionsFrom (H:=spec_imports) latest res.
Proof.
  eexists _, _. split; [vm_compute; reflexivity|].
  eapply (proj1 (GoFindTryWork_go_version (H:=spec_imports)) {| c := sampleCorpus |}
            (gerritWith [changeThree; changeTwo; changeOne]) 100 process_start);
    [left; reflexivity|vm_compute; reflexivity].
Defined.

(** ** supportedGoReleases *)

Lemma prefix_cons (a b : ascii) (s1 s2 : string) :
  String.prefix (String a s1) (String b s2) = true ↔ a = b ∧ String.prefix s1 s2 = true.
Proof.
  change (String.prefix (String a s1) (String b s2))
    with (if ascii_dec a b then String.prefix s1 s2 else false).
  destruct (ascii_dec a b); naive_solver.
Qed.

(** No ref is both under refs/tags/ and under refs/heads/: the second case
    of the switch reads the refs the first one leaves. *)
Lemma tag_prefix_not_branch (ref : string) :
  HasPrefix ref "refs/tags/go" = true →
  HasPrefix ref "refs/heads/release-branch.go" = false.
Proof.
  unfold HasPrefix. intros Htag.
  destruct (String.prefix "refs/heads/release-branch.go" ref) eqn:Hbranch; [|done].
  do 5 (destruct ref as [|? ref]; [discriminate Htag|];
        apply prefix_cons in Htag as [_ Htag]; apply prefix_cons in Hbranch as [_ Hbranch]).
  destruct ref as [|? ref]; [discriminate Htag|].
  apply prefix_cons in Htag as [<- _]. by apply prefix_cons in Hbranch as [[=] _].
Qed.

Lemma visitRef_no_error `{Imports} (ref : string) (hash : GitHash) (m : refMaps) :
  (visitRef ref hash m).2 = None.
Proof. unfold visitRef. by repeat case_match. Qed.

Lemma visitRef_dom_tags `{Imports} (ref : string) (hash : GitHash) (m : refMaps) :
  dom (tags (visitRef ref hash m).1)
  = dom (tags m) ∪ list_to_set (option_list (tagPair ref)).
Proof.
  unfold visitRef, tagPair. simpl.
  destruct (HasPrefix ref "refs/tags/go").
  - destruct (parseTagVersion _) as [[[major minor] patch] [|]]; simpl; [|set_solver].
    destruct (tags m !! _) as [t|] eqn:Ht; [destruct (patch <=? tag.Patch t)|]; simpl;
      rewrite ?dom_insert_L; [|set_solver..].
    apply (elem_of_dom_2 (D:=gset majorMinor.t)) in Ht. set_solver.
  - repeat case_match; simpl; set_solver.
Qed.

Lemma visitRef_dom_branches `{Imports} (ref : string) (hash : GitHash) (m : refMaps) :
  dom (branches (visitRef ref hash m).1)
  = dom (branches m) ∪ list_to_set (option_list (branchPair ref)).
Proof.
  unfold visitRef, branchPair. simpl.
  destruct (HasPrefix ref "refs/tags/go") eqn:Htag.
  - rewrite (tag_prefix_not_branch _ Htag).
    repeat case_match; simpl; set_solver.
  - destruct (HasPrefix ref "refs/heads/release-branch.go"); [|simpl; set_solver].
    destruct (parseReleaseBranchVersion _) as [[major minor] [|]]; simpl;
      rewrite ?dom_insert_L; set_solver.
Qed.

(** The closure never returns an error, so the iteration reaches the end;
    the keys of the two maps are then the versions of the tags and of the
    release branches among the refs. *)
Lemma ForeachNonChangeRef_visitRef `{Imports} (goProj : nonChangeRefLister) (m : refMaps) :
  ∃ m', ForeachNonChangeRef goProj visitRef m = (m', None) ∧
        dom (tags m') = dom (tags m) ∪ list_to_set (omap (λ rh, tagPair rh.1) goProj) ∧
        dom (branches m')
        = dom (branches m) ∪ list_to_set (omap (λ rh, branchPair rh.1) goProj).
Proof.
  revert m. induction goProj as [|[ref hash] rest IH]; intros m; simpl.
  { exists m. set_solver. }
  pose proof (visitRef_no_error ref hash m) as Herr.
  pose proof (visitRef_dom_tags ref hash m) as Htags.
  pose proof (visitRef_dom_branches ref hash m) as Hbranches.
  destruct (visitRef ref hash m) as [m1 err]. simpl in *. subst err.
  destruct (IH m1) as (m' & -> & Ht & Hb). exists m'. split; [done|].
  rewrite Ht, Hb, Htags, Hbranches.
  destruct (tagPair ref), (branchPair ref); simpl; set_solver.
Qed.

Lemma releaseLess_spec (ri rj : GoRelease.t) :
  releaseLess ri rj = true ↔
  GoRelease.Major rj < GoRelease.Major ri ∨
  (GoRelease.Major rj = GoRelease.Major ri ∧
   (GoRelease.Minor rj < GoRelease.Minor ri ∨
    (GoRelease.Minor rj = GoRelease.Minor ri ∧ GoRelease.Patch rj < GoRelease.Patch ri))).
Proof.
  unfold releaseLess.
  destruct (Z.eqb_spec (GoRelease.Major ri) (GoRelease.Major rj));
    [destruct (Z.eqb_spec (GoRelease.Minor ri) (GoRelease.Minor rj))|];
    simpl; rewrite Z.gtb_ltb, Z.ltb_lt; lia.
Qed.

Lemma inOrder_releaseLess (ri rj : GoRelease.t) :
  inOrder releaseLess ri rj ↔
  GoRelease.Major rj < GoRelease.Major ri ∨
  (GoRelease.Major rj = GoRelease.Major ri ∧
   (GoRelease.Minor rj < GoRelease.Minor ri ∨
    (GoRelease.Minor rj = GoRelease.Minor ri ∧ GoRelease.Patch rj ≤ GoRelease.Patch ri))).
Proof.
  unfold inOrder. rewrite <- not_true_iff_false, releaseLess_spec. lia.
Qed.

Lemma releaseLess_asym (ri rj : GoRelease.t) :
  releaseLess ri rj = true → releaseLess rj ri = false.
Proof. rewrite <- not_true_iff_false, !releaseLess_spec. lia. Qed.

Lemma inOrder_releaseLess_trans : Transitive (inOrder releaseLess).
Proof. intros x y z. rewrite !inOrder_releaseLess. lia. Qed.

Lemma inOrder_releaseLess_tie (ri rj : GoRelease.t) :
  inOrder releaseLess ri rj → inOrder releaseLess rj ri → pairOf ri = pairOf rj.
Proof.
  rewrite !inOrder_releaseLess. unfold pairOf. intros Hij Hji. f_equal; lia.
Qed.

Lemma inOrder_releaseLess_newer (ri rj : GoRelease.t) :
  inOrder releaseLess ri rj → pairOf ri ≠ pairOf rj → newer (pairOf ri) (pairOf rj).
Proof.
  rewrite inOrder_releaseLess. unfold pairOf, newer. simpl. intros Hij Hne.
  destruct (decide (GoRelease.Minor rj = GoRelease.Minor ri)) as [Hmin|]; [|lia].
  destruct (decide (GoRelease.Major rj = GoRelease.Major ri)) as [Hmaj|]; [|lia].
  destruct Hne. by rewrite Hmin, Hmaj.
Qed.

(** The releases gathered by the loop over [tags], by version: one for
    each key of [tags] that is also a key of [branches]. *)
Lemma pairOf_releases `{Imports} (bs : gmap majorMinor.t branch.t)
    (l : list (majorMinor.t * tag.t)) :
  pairOf <$> omap (releaseOf bs) l = filter (λ v, v ∈ dom bs) l.*1.
Proof.
  induction l as [|[v t] l IH]; [done|].
  rewrite fmap_cons, filter_cons. cbn [fst].
  change (omap (releaseOf bs) ((v, t) :: l))
    with (match releaseOf bs (v, t) with
          | Some r => r :: omap (releaseOf bs) l
          | None => omap (releaseOf bs) l
          end).
  unfold releaseOf at 1. cbn [fst snd].
  destruct (bs !! v) as [b|] eqn:Hb.
  - rewrite decide_True by (by apply elem_of_dom). rewrite fmap_cons, IH.
    f_equal. by destruct v.
  - rewrite decide_False by (by apply not_elem_of_dom). done.
Qed.

Lemma pairOf_allReleases `{Imports} (m : refMaps) :
  NoDup (pairOf <$> allReleases m) ∧
  ∀ v, v ∈ pairOf <$> allReleases m ↔ v ∈ dom (tags m) ∩ dom (branches m).
Proof.
  assert (pairOf <$> allReleases m
          ≡ₚ filter (λ v, v ∈ dom (branches m)) (map_to_list (tags m)).*1) as Hperm.
  { unfold allReleases. by rewrite sort_Slice_Permutation, pairOf_releases. }
  split.
  - rewrite Hperm. apply NoDup_filter, NoDup_fst_map_to_list.
  - intros v. rewrite Hperm.
    rewrite list_elem_of_filter, elem_of_intersection, list_elem_of_fmap. split.
    + intros [Hb ([v' t] & -> & Ht%elem_of_map_to_list)]. split; [|done].
      by apply elem_of_dom.
    + intros [[t Ht]%elem_of_dom Hb]. split; [done|]. exists (v, t).
      split; [done|]. by apply elem_of_map_to_list.
Qed.

(** Go ranges over [tags] in an order it does not specify; whichever it
    is, the sorted releases are the same. *)
Lemma allReleases_order `{Imports} (m : refMaps) (l : list (majorMinor.t * tag.t)) :
  l ≡ₚ map_to_list (tags m) →
  sort_Slice releaseLess (omap (releaseOf (branches m)) l) = allReleases m.
Proof.
  intros Hl. unfold allReleases.
  apply (sort_Slice_order releaseLess releaseLess_asym
           (Transitive0:=inOrder_releaseLess_trans)); [|by rewrite Hl].
  intros x y Hx Hy Hxy Hyx.
  apply (NoDup_fmap_eq pairOf (omap (releaseOf (branches m)) l)); [|done..|].
  - rewrite pairOf_releases. apply NoDup_filter. rewrite Hl.
    apply NoDup_fst_map_to_list.
  - by apply inOrder_releaseLess_tie.
Qed.

Lemma allReleases_complete `{Imports} (goProj : nonChangeRefLister) (m : refMaps) :
  ForeachNonChangeRef goProj visitRef (mkRefMaps ∅ ∅) = (m, None) →
  (∀ v, v ∈ pairOf <$> allReleases m ↔ v ∈ completePairs goProj) ∧
  length (allReleases m) = size (completePairs goProj).
Proof.
  intros Hfold.
  destruct (ForeachNonChangeRef_visitRef goProj (mkRefMaps ∅ ∅)) as (m' & Hfold' & Ht & Hb).
  rewrite Hfold in Hfold'. injection Hfold' as <-.
  cbn [tags branches] in Ht, Hb. rewrite dom_empty_L in Ht. rewrite dom_empty_L in Hb.
  destruct (pairOf_allReleases m) as [Hnodup Helem].
  assert (∀ v, v ∈ pairOf <$> allReleases m ↔ v ∈ completePairs goProj) as Hcomplete.
  { intros v. rewrite Helem, Ht, Hb. unfold completePairs. set_solver. }
  split; [done|].
  rewrite <- (length_fmap pairOf), <- (size_list_to_set (C:=gset majorMinor.t)) by done.
  f_equal. apply set_eq. intros v. by rewrite elem_of_list_to_set.
Qed.

(** The error is returned, with a nil slice, exactly when fewer than two
    versions are complete. *)
Lemma supportedGoReleases_error `{Imports} (goProj : nonChangeRefLister) :
  ((supportedGoReleases goProj).2 ≠ None ↔ (size (completePairs goProj) < 2)%nat) ∧
  ((supportedGoReleases goProj).2 ≠ None → (supportedGoReleases goProj).1 = []).
Proof.
  destruct (ForeachNonChangeRef_visitRef goProj (mkRefMaps ∅ ∅)) as (m & Hfold & _).
  destruct (allReleases_complete goProj m Hfold) as [_ Hsize].
  unfold supportedGoReleases. rewrite Hfold. simpl.
  destruct (Z.ltb_spec (Z.of_nat (length (allReleases m))) 2) as [Hlen|Hlen]; simpl.
  - split; [split; [lia|done]|done].
  - split; [split; [done|lia]|done].
Qed.

(** C2: [supportedGoReleases] fails, with no releases, exactly when fewer
    than two versions are complete in the refs (have both a tag and a
    release branch); otherwise it returns exactly two releases, of the two
    latest complete versions, the latest first. *)
Theorem supportedGoReleases_never_short `{Imports} (goProj : nonChangeRefLister) :
  ((supportedGoReleases goProj).2 ≠ None ↔ (size (completePairs goProj) < 2)%nat) ∧
  ((supportedGoReleases goProj).2 ≠ None → (supportedGoReleases goProj).1 = []) ∧
  ((supportedGoReleases goProj).2 = None →
   ∃ latest previous,
     (supportedGoReleases goProj).1 = [latest; previous] ∧
     pairOf latest ∈ completePairs goProj ∧
     pairOf previous ∈ completePairs goProj ∧
     newer (pairOf latest) (pairOf previous) ∧
     ∀ v, v ∈ completePairs goProj →
       v = pairOf latest ∨ v = pairOf previous ∨ newer (pairOf previous) v).
Proof.
  destruct (supportedGoReleases_error goProj) as [Hiff Hnil].
  split; [done|]. split; [done|]. clear Hiff Hnil.
  destruct (ForeachNonChangeRef_visitRef goProj (mkRefMaps ∅ ∅)) as (m & Hfold & _).
  destruct (allReleases_complete goProj m Hfold) as [Hcomplete _].
  destruct (pairOf_allReleases m) as [Hnodup _].
  pose proof (sort_Slice_Sorted releaseLess releaseLess_asym
                (omap (releaseOf (branches m)) (map_to_list (tags m)))) as Hsorted.
  apply (Sorted_StronglySorted _ (Transitive0:=inOrder_releaseLess_trans)) in Hsorted.
  fold (allReleases m) in Hsorted.
  unfold supportedGoReleases. rewrite Hfold. simpl.
  destruct (Z.ltb_spec (Z.of_nat (length (allReleases m))) 2) as [Hlen|Hlen]; simpl;
    [intros [=]|intros _].
  destruct (allReleases m) as [|latest [|previous rest]]; simpl in Hlen; [lia..|].
  exists latest, previous. split; [done|].
  rewrite !fmap_cons in Hnodup, Hcomplete.
  apply NoDup_cons in Hnodup as [Hlatest [Hprevious _]%NoDup_cons].
  apply StronglySorted_cons in Hsorted as [Hlatest_first Hsorted].
  apply StronglySorted_cons in Hsorted as [Hprevious_first _].
  rewrite Forall_cons in Hlatest_first. destruct Hlatest_first as [Hlp _].
  split; [by apply Hcomplete; left|]. split; [by apply Hcomplete; right; left|].
  split.
  { apply inOrder_releaseLess_newer; [done|].
    intros Heq. apply Hlatest. rewrite Heq. by left. }
  intros v Hv. apply Hcomplete in Hv.
  apply elem_of_cons in Hv as [->|Hv]; [by left|].
  apply elem_of_cons in Hv as [->|Hv]; [by right; left|].
  right; right. apply list_elem_of_fmap in Hv as (r & -> & Hr).
  rewrite Forall_forall in Hprevious_first.
  apply inOrder_releaseLess_newer; [by apply Hprevious_first|].
  intros Heq. apply Hprevious. rewrite Heq. by apply list_elem_of_fmap_2.
Qed.

Lemma supportedGoReleases_never_short_witness :
  (∃ latest previous,
     (supportedGoReleases (H:=spec_imports) (fixture "11" "12" "121" "b11" "b12")).1
     = [latest; previous] ∧
     newer (pairOf latest) (pairOf previous)) ∧
  (size (completePairs (H:=spec_imports) lonePair) < 2)%nat ∧
  (supportedGoReleases (H:=spec_imports) lonePair).1 = [].
Proof.
  split; [|split].
  - destruct (proj2 (proj2 (supportedGoReleases_never_short (H:=spec_imports)
                              (fixture "11" "12" "121" "b11" "b12"))) eq_refl)
      as (latest & previous & Hrs & _ & _ & Hnewer & _).
    by exists latest, previous.
  - vm_compute. lia.
  - apply (proj1 (proj2 (supportedGoReleases_never_short (H:=spec_imports) lonePair))).
    apply (proj2 (proj1 (supportedGoReleases_never_short (H:=spec_imports) lonePair))).
    vm_compute. lia.
Defined.

(** C3: on the refs of the fixture, whatever their hashes, the result is
    the release 1.12 with patch 1 and then the release 1.11; a further tag
    go1.13 without a release branch changes nothing; and refs with one
    complete version only make the call fail. *)
Theorem supportedGoReleases_fixture (h11 h12 h121 b11 b12 h13 : GitHash) :
  supportedGoReleases (H:=spec_imports) (fixture h11 h12 h121 b11 b12)
  = ([GoRelease.mk 1 12 1 "go1.12.1" h121 "release-branch.go1.12" b12;
      GoRelease.mk 1 11 0 "go1.11" h11 "release-branch.go1.11" b11], None) ∧
  supportedGoReleases (H:=spec_imports)
    (fixture h11 h12 h121 b11 b12 ++ [("refs/tags/go1.13", h13)])%list
  = supportedGoReleases (H:=spec_imports) (fixture h11 h12 h121 b11 b12) ∧
  (∀ (imports : Imports) (goProj : nonChangeRefLister),
     size (completePairs goProj) = 1%nat →
     ∃ err, supportedGoReleases goProj = ([], Some err)).
Proof.
  split; [by vm_compute|]. split; [by vm_compute|].
  intros imports goProj Hone.
  destruct (supportedGoReleases_error goProj) as [Hiff Hnil].
  assert ((supportedGoReleases goProj).2 ≠ None) as Herr by (apply Hiff; lia).
  specialize (Hnil Herr).
  destruct (supportedGoReleases goProj) as [rs [err|]]; simpl in *; [|done].
  exists err. by rewrite Hnil.
Qed.

Lemma supportedGoReleases_fixture_witness :
  size (completePairs (H:=spec_imports) lonePair) = 1%nat ∧
  ∃ err, supportedGoReleases (H:=spec_imports) lonePair = ([], Some err).
Proof.
  split; [reflexivity|].
  apply (proj2 (proj2 (supportedGoReleases_fixture "" "" "" "" "" "")) spec_imports lonePair).
  reflexivity.
Defined.

(** ** dashboard: what TestBuilderConfig asserts *)

(** No row of the table asks for a trybot that is not a post-submit
    builder too. *)
Lemma TestBuilderConfig_wants :
  Forall (λ tt, Z.land tt.2 BuilderConfigTest.isTrybot ≠ 0 →
                Z.land tt.2 BuilderConfigTest.isBuilder ≠ 0)
    BuilderConfigTest.tests.
Proof.
  apply Forall_forall. intros tt Htt.
  assert (forallb (λ tt, implb (negb (Z.land tt.2 BuilderConfigTest.isTrybot =? 0))
                           (negb (Z.land tt.2 BuilderConfigTest.isBuilder =? 0)))
            BuilderConfigTest.tests = true) as Hall by (by vm_compute).
  rewrite forallb_forall in Hall. apply list_elem_of_In, Hall in Htt.
  destruct (Z.eqb_spec (Z.land tt.2 BuilderConfigTest.isTrybot) 0);
    destruct (Z.eqb_spec (Z.land tt.2 BuilderConfigTest.isBuilder) 0); done.
Qed.

(** Eligibility functions that pass the test answer, on every row of its
    table, post-submit wherever they answer trybot. *)
Lemma TestBuilderConfig_trybot_subset
    (BuildsRepoPostSubmit BuildsRepoTryBot : string → string → string → string → bool) :
  forallb (BuilderConfigTest.rowPasses BuildsRepoPostSubmit BuildsRepoTryBot)
    BuilderConfigTest.tests = true →
  ∀ br want, (br, want) ∈ BuilderConfigTest.tests →
    BuildsRepoTryBot (BuilderConfigTest.builder br) (BuilderConfigTest.repo br)
      (BuilderConfigTest.branch br) (BuilderConfigTest.goBranch br) = true →
    BuildsRepoPostSubmit (BuilderConfigTest.builder br) (BuilderConfigTest.repo br)
      (BuilderConfigTest.branch br) (BuilderConfigTest.goBranch br) = true.
Proof.
  intros Hpass br want Hrow Htry.
  rewrite forallb_forall in Hpass.
  pose proof (Hpass _ (proj1 (list_elem_of_In _ _) Hrow)) as Hbr.
  assert (forallb (λ tt, negb (Z.land tt.2 BuilderConfigTest.isBuilder =? 0)
                         || negb (Z.land tt.2 BuilderConfigTest.notTrybot =? 0))
            BuilderConfigTest.tests = true) as Hall by (by vm_compute).
  rewrite forallb_forall in Hall.
  pose proof (Hall _ (proj1 (list_elem_of_In _ _) Hrow)) as Hwant.
  unfold BuilderConfigTest.rowPasses in Hbr. simpl in Hwant. rewrite Htry in Hbr.
  destruct (BuildsRepoPostSubmit _ _ _ _); [done|].
  destruct (Z.land want BuilderConfigTest.isBuilder =? 0),
    (Z.land want BuilderConfigTest.notTrybot =? 0); simpl in *;
    rewrite ?andb_false_r in Hbr; done.
Qed.

(** The table contradicts itself nowhere: the answers read off its rows
    pass the test, and so have the property on every row. *)
Lemma TestBuilderConfig_trybot_subset_witness :
  ∀ br want, (br, want) ∈ BuilderConfigTest.tests →
    BuilderConfigTest.tableAnswer BuilderConfigTest.isTrybot
      (BuilderConfigTest.builder br) (BuilderConfigTest.repo br)
      (BuilderConfigTest.branch br) (BuilderConfigTest.goBranch br) = true →
    BuilderConfigTest.tableAnswer BuilderConfigTest.isBuilder
      (BuilderConfigTest.builder br) (BuilderConfigTest.repo br)
      (BuilderConfigTest.branch br) (BuilderConfigTest.goBranch br) = true.
Proof.
  apply (TestBuilderConfig_trybot_subset
           (BuilderConfigTest.tableAnswer BuilderConfigTest.isBuilder)
           (BuilderConfigTest.tableAnswer BuilderConfigTest.isTrybot)).
  vm_compute. reflexivity.
Defined.

(** * Further properties of api.go *)

(** ** GoFindTryWork: queries and the cache *)

(** The call as it goes on after a cache miss. *)
Lemma GoFindTryWork_miss `{Imports} (s : apiService) (tryBotGerrit : GerritClient)
    (now : Time) (p : process) :
  cacheMiss s now p →
  GoFindTryWork s tryBotGerrit now p =
  let sent := query :: gerritQueries p in
  let old := cache p in
  match tryBotGerrit query queryFields with
  | (_, Some err) =>
      (Return None (Some err),
       mkProcess (tryCache.mk (tryCache.forNumChanges old) now (tryCache.val old)) sent)
  | (cis, None) =>
      let failed := mkProcess (tryCache.mk (sumChanges s) now (tryCache.val old)) sent in
      match Corpus.Project (c s) "go.googlesource.com" "go" with
      | None => (Panic, failed)
      | Some goProj =>
          match supportedGoReleases (GerritProject.nonChangeRefs goProj) with
          | (_, Some err) => (Return None (Some err), failed)
          | (supportedReleases, None) =>
              match waitingFor s goProj supportedReleases cis [] with
              | None => (Panic, failed)
              | Some waiting =>
                  let res := GoFindTryWorkResponse.mk (sort_Slice commitLess waiting) in
                  (Return (Some res) None,
                   mkProcess (tryCache.mk (sumChanges s) now (Some res)) sent)
              end
          end
      end
  end.
Proof.
  intros Hmiss%cacheMiss_test. unfold GoFindTryWork, queryFields. cbv zeta.
  by rewrite Hmiss.
Qed.

Lemma GoFindTryWork_hit `{Imports} (s : apiService) (tryBotGerrit : GerritClient)
    (now : Time) (p : process) :
  ¬ cacheMiss s now p →
  GoFindTryWork s tryBotGerrit now p = (Return (tryCache.val (cache p)) None, p).
Proof.
  intros Hhit. unfold GoFindTryWork.
  destruct (bool_decide _ && _) eqn:Htest; [done|].
  by apply cacheMiss_test in Htest.
Qed.

(** X1: a call sends Gerrit one query, the fixed one, when it misses the
    cache, and none when it hits: then the process is left as it was and
    the cached result is returned. *)
Theorem GoFindTryWork_one_query `{Imports} (s : apiService) (tryBotGerrit : GerritClient)
    (now : Time) (p p' : process) (r : outcome GoFindTryWorkResponse.t) :
  GoFindTryWork s tryBotGerrit now p = (r, p') →
  (cacheMiss s now p → gerritQueries p' = query :: gerritQueries p) ∧
  (¬ cacheMiss s now p → p' = p ∧ r = Return (tryCache.val (cache p)) None).
Proof.
  intros Hcall. split.
  - intros Hmiss. rewrite (GoFindTryWork_miss _ _ _ _ Hmiss) in Hcall.
    revert Hcall. cbv zeta.
    destruct (tryBotGerrit _ _) as [cis [err|]]; [by intros [= _ <-]|].
    destruct (Corpus.Project _ _ _) as [goProj|]; [|by intros [= _ <-]].
    destruct (supportedGoReleases _) as [rs [err|]]; [by intros [= _ <-]|].
    destruct (waitingFor _ _ _ _ _) as [waiting|]; by intros [= _ <-].
  - intros Hhit. rewrite (GoFindTryWork_hit _ _ _ _ Hhit) in Hcall.
    by injection Hcall as <- <-.
Qed.

Lemma GoFindTryWork_one_query_witness :
  ∃ r p',
    GoFindTryWork (H:=spec_imports) {| c := sampleCorpus |} (gerritWith [changeOne]) 100
      process_start
    = (r, p') ∧
    gerritQueries p' = query :: gerritQueries process_start.
Proof.
  eexists _, _. split; [vm_compute; reflexivity|].
  refine (proj1 (GoFindTryWork_one_query (H:=spec_imports) {| c := sampleCorpus |}
                   (gerritWith [changeOne]) 100 process_start _ _ _) _);
    [vm_compute; reflexivity|left; reflexivity].
Defined.

(** X2: after a call that polled and succeeded, a further call returns
    the same result and leaves the process as it is, sending no query,
    whenever the count of label changes is what it was at the poll or
    less than 15 seconds have passed since. *)
Theorem GoFindTryWork_again `{Imports} (s s' : apiService) (gerrit gerrit' : GerritClient)
    (now now' : Time) (p p1 : process) (res : GoFindTryWorkResponse.t) :
  cacheMiss s now p →
  GoFindTryWork s gerrit now p = (Return (Some res) None, p1) →
  sumChanges s' = sumChanges s ∨ now' - now < 15 * Second →
  GoFindTryWork s' gerrit' now' p1 = (Return (Some res) None, p1).
Proof.
  intros Hmiss Hcall Hfresh.
  apply GoFindTryWork_success in Hcall
    as [(Hhit & _)|(_ & _ & _ & _ & _ & _ & _ & _ & _ & _ & ->)]; [done|].
  rewrite GoFindTryWork_hit; [done|].
  unfold cacheMiss. simpl. intros [[=]|[Hcount Htime]].
  unfold maxPollInterval in Htime. destruct Hfresh; [congruence|lia].
Qed.

Lemma GoFindTryWork_again_witness :
  ∃ res p1,
    GoFindTryWork (H:=spec_imports) {| c := sampleCorpus |} (gerritWith [changeOne]) 100
      process_start
    = (Return (Some res) None, p1) ∧
    GoFindTryWork (H:=spec_imports) {| c := sampleCorpus |} gerritDown (100 + 3600 * Second) p1
    = (Return (Some res) None, p1).
Proof.
  eexists _, _. split; [vm_compute; reflexivity|].
  eapply (GoFindTryWork_again (H:=spec_imports) {| c := sampleCorpus |}
            {| c := sampleCorpus |} (gerritWith [changeOne]) gerritDown 100 _ process_start);
    [left; reflexivity|vm_compute; reflexivity|left; reflexivity].
Defined.

Lemma ListGoReleases_failure `{Imports} (s : apiService) (e : error) :
  ListGoReleases s = Return None (Some e) →
  ∃ goProj rs,
    Corpus.Project (c s) "go.googlesource.com" "go" = Some goProj ∧
    supportedGoReleases (GerritProject.nonChangeRefs goProj) = (rs, Some e).
Proof.
  unfold ListGoReleases.
  destruct (Corpus.Project _ _ _) as [goProj|]; [|done].
  destruct (supportedGoReleases _) as [rs [err|]] eqn:Hrs; intros [= <-].
  by exists goProj, rs.
Qed.

(** When the query succeeds but the releases of the go project cannot
    be resolved, the call fails with the error of the releases and keeps
    the cached result, but it has taken the new count of label changes
    as the snapshot: a further call on the same corpus, at any time,
    returns the cached result and sends no query. *)
Lemma GoFindTryWork_after_release_failure `{Imports} (s : apiService)
    (gerrit gerrit' : GerritClient) (now now' : Time) (p : process)
    (cis : list ChangeInfo.t) (e : error) (v : GoFindTryWorkResponse.t) :
  cacheMiss s now p →
  tryCache.val (cache p) = Some v →
  gerrit query queryFields = (cis, None) →
  ListGoReleases s = Return None (Some e) →
  ∃ p1, GoFindTryWork s gerrit now p = (Return None (Some e), p1) ∧
        gerritQueries p1 = query :: gerritQueries p ∧
        GoFindTryWork s gerrit' now' p1 = (Return (Some v) None, p1).
Proof.
  intros Hmiss Hv Hquery (goProj & rs & HgoProj & Hrs)%ListGoReleases_failure.
  rewrite (GoFindTryWork_miss _ _ _ _ Hmiss). cbv zeta.
  rewrite Hquery, HgoProj, Hrs, Hv.
  eexists. split; [done|]. split; [done|].
  rewrite GoFindTryWork_hit; [done|].
  unfold cacheMiss. simpl. by intros [[=]|[? _]].
Qed.

Lemma GoFindTryWork_after_release_failure_witness :
  ∃ e p1,
    GoFindTryWork (H:=spec_imports) {| c := lonePairCorpus |} (gerritWith [])
      (50 + 20 * Second) polledProcess
    = (Return None (Some e), p1) ∧
    GoFindTryWork (H:=spec_imports) {| c := lonePairCorpus |} (gerritWith [changeOne])
      (50 + 3600 * Second) p1
    = (Return (Some (GoFindTryWorkResponse.mk [])) None, p1).
Proof.
  destruct (GoFindTryWork_after_release_failure (H:=spec_imports) {| c := lonePairCorpus |}
              (gerritWith []) (gerritWith [changeOne]) (50 + 20 * Second)
              (50 + 3600 * Second) polledProcess []
              "there was a problem finding supported Go releases"
              (GoFindTryWorkResponse.mk []))
    as (p1 & Hfirst & _ & Hsecond).
  - right. split; [discriminate|]. vm_compute. discriminate.
  - reflexivity.
  - reflexivity.
  - reflexivity.
  - by exists "there was a problem finding supported Go releases", p1.
Defined.

(** X3: on a corpus for which [ListGoReleases] fails, no call of
    [GoFindTryWork] changes the cached result, and a call that polls
    returns either the error of its query or the error of
    [ListGoReleases]. *)
Theorem ListGoReleases_failure_blocks `{Imports} (s : apiService) (e : error)
    (tryBotGerrit : GerritClient) (now : Time) (p p' : process)
    (r : outcome GoFindTryWorkResponse.t) :
  ListGoReleases s = Return None (Some e) →
  GoFindTryWork s tryBotGerrit now p = (r, p') →
  tryCache.val (cache p') = tryCache.val (cache p) ∧
  (cacheMiss s now p →
   match (tryBotGerrit query queryFields).2 with
   | Some e' => r = Return None (Some e')
   | None => r = Return None (Some e)
   end).
Proof.
  intros (goProj & rs & HgoProj & Hrs)%ListGoReleases_failure Hcall.
  destruct (decide (cacheMiss s now p)) as [Hmiss|Hhit].
  - rewrite (GoFindTryWork_miss _ _ _ _ Hmiss) in Hcall. revert Hcall. cbv zeta.
    rewrite HgoProj, Hrs.
    destruct (tryBotGerrit _ _) as [cis [err|]]; intros [= <- <-]; by split.
  - rewrite (GoFindTryWork_hit _ _ _ _ Hhit) in Hcall. injection Hcall as <- <-.
    by split.
Qed.

Lemma ListGoReleases_failure_blocks_witness :
  ∃ r p',
    GoFindTryWork (H:=spec_imports) {| c := lonePairCorpus |} (gerritWith [changeOne]) 100
      process_start
    = (r, p') ∧
    r = Return None (Some "there was a problem finding supported Go releases").
Proof.
  eexists _, _. split; [vm_compute; reflexivity|].
  refine (proj2 (ListGoReleases_failure_blocks (H:=spec_imports) {| c := lonePairCorpus |}
                   "there was a problem finding supported Go releases"
                   (gerritWith [changeOne]) 100 process_start _ _ _ _) _);
    [reflexivity|vm_compute; reflexivity|left; reflexivity].
Defined.

(** ** The handlers: a response or an error *)

(** X4: each handler returns a response or an error and never both or
    neither: [HasAncestor] and [GetRef] always, [ListGoReleases] and
    [GoFindTryWork] whenever they return. *)
Theorem handlers_response_or_error `{Imports} (s : apiService) :
  (∀ req, (HasAncestor s req).1 = None ↔ (HasAncestor s req).2 ≠ None) ∧
  (∀ req, (GetRef s req).1 = None ↔ (GetRef s req).2 ≠ None) ∧
  (∀ res err, ListGoReleases s = Return res err → (res = None ↔ err ≠ None)) ∧
  (∀ tryBotGerrit now p res err p',
     GoFindTryWork s tryBotGerrit now p = (Return res err, p') →
     (res = None ↔ err ≠ None)).
Proof.
  split; [|split; [|split]].
  - intros req. unfold HasAncestor. by repeat case_match.
  - intros req. unfold GetRef. by repeat case_match.
  - intros res err. unfold ListGoReleases.
    repeat case_match; intros [= <- <-]; done.
  - intros g now p res err p' Hcall.
    destruct (decide (cacheMiss s now p)) as [Hmiss|Hhit].
    + rewrite (GoFindTryWork_miss _ _ _ _ Hmiss) in Hcall. revert Hcall. cbv zeta.
      repeat case_match; intros [= <- <- _]; done.
    + rewrite (GoFindTryWork_hit _ _ _ _ Hhit) in Hcall. injection Hcall as <- <- _.
      split; [|done]. intros Hnone. destruct Hhit. by left.
Qed.

Lemma handlers_response_or_error_witness :
  (GetRef (H:=spec_imports) {| c := sampleCorpus |}
     (GetRefRequest.mk "go.googlesource.com" "net" "refs/heads/master")).1 = None.
Proof.
  apply (proj1 (proj2 (handlers_response_or_error (H:=spec_imports) {| c := sampleCorpus |}))).
  discriminate.
Defined.

(** ** GoFindTryWork: the work items *)

Lemma setGoFields_subrepo `{Imports} (goProj : GerritProject.t) (latest previous : GoRelease.t)
    (work0 work : GerritTryWorkItem.t) :
  setGoFields goProj [latest; previous] work0 = Some work →
  GerritTryWorkItem.Project work ≠ "go" →
  GerritTryWorkItem.GoCommit work
  = [GitHash_String (GerritProject.Ref goProj "refs/heads/master");
     GoRelease.BranchCommit latest; GoRelease.BranchCommit previous] ∧
  GerritTryWorkItem.GoBranch work
  = ["master"; GoRelease.BranchName latest; GoRelease.BranchName previous] ∧
  GerritTryWorkItem.GoVersion work
  = [MajorMinor.mk (GoRelease.Major latest) (GoRelease.Minor latest);
     MajorMinor.mk (GoRelease.Major latest) (GoRelease.Minor latest);
     MajorMinor.mk (GoRelease.Major previous) (GoRelease.Minor previous)].
Proof.
  unfold setGoFields. simpl.
  destruct (String.eqb_spec (GerritTryWorkItem.Project work0) "go") as [Hgo|Hsub].
  - intros Hwork Hne. destruct Hne. revert Hwork.
    repeat case_match; intros [= <-]; done.
  - by intros [= <-] _.
Qed.

(** What a round of the loop appends, read off the change and its CL. *)
Lemma appended_Some `{Imports} (s : apiService) (goProj : GerritProject.t)
    (rs : list GoRelease.t) (ci : ChangeInfo.t) (work : GerritTryWorkItem.t) :
  appended s goProj rs ci = Some work →
  ∃ gp cl commit work0,
    Corpus.Project (c s) "go.googlesource.com" (ChangeInfo.Project ci) = Some gp ∧
    GerritProject.CL gp (int32 (ChangeInfo.ChangeNumber ci)) = Some cl ∧
    GerritCL.Commit cl = Some commit ∧
    setGoFields goProj rs work0 = Some work ∧
    GerritTryWorkItem.Project work0 = GerritCL.Project cl ∧
    GerritTryWorkItem.Branch work0 = TrimPrefix (GerritCL.Branch cl) "refs/heads/" ∧
    GerritTryWorkItem.ChangeId work0 = GerritCL.ChangeID cl ∧
    GerritTryWorkItem.Commit work0
    = (if String.eqb (ChangeInfo.CurrentRevision ci) ""
       then GitHash_String (GitCommit.Hash commit) else ChangeInfo.CurrentRevision ci).
Proof.
  unfold appended, workFor, tryWorkItem.
  destruct (Corpus.Project _ _ _) as [gp|] eqn:Hgp; [|done].
  destruct (GerritProject.CL _ _) as [cl|] eqn:Hcl; [|done].
  destruct (GerritCL.Commit cl) as [commit|] eqn:Hcommit; [|done].
  destruct (setGoFields _ _ _) as [work1|] eqn:Hset; [|done].
  intros [= <-]. exists gp, cl, commit. eexists.
  do 3 (split; [done|]). split; [exact Hset|].
  by destruct (String.eqb (ChangeInfo.CurrentRevision ci) "").
Qed.


(** X5: in the answer of a call that polled, each work item of a
    repository other than go is fanned out over master and the two
    supported releases, in that order: the three Go lists have three
    entries each, the commit of master and the branch commits, "master"
    and the branch names, and the latest version (for master) followed by
    the versions of the two releases. *)
Theorem GoFindTryWork_subrepo `{Imports} (s : apiService) (tryBotGerrit : GerritClient)
    (now : Time) (p p' : process) (res : GoFindTryWorkResponse.t) :
  cacheMiss s now p →
  GoFindTryWork s tryBotGerrit now p = (Return (Some res) None, p') →
  ∃ goProj latest previous,
    Corpus.Project (c s) "go.googlesource.com" "go" = Some goProj ∧
    supportedGoReleases (GerritProject.nonChangeRefs goProj) = ([latest; previous], None) ∧
    ∀ work, work ∈ GoFindTryWorkResponse.Waiting res →
      GerritTryWorkItem.Project work ≠ "go" →
      GerritTryWorkItem.GoCommit work
      = [GitHash_String (GerritProject.Ref goProj "refs/heads/master");
         GoRelease.BranchCommit latest; GoRelease.BranchCommit previous] ∧
      GerritTryWorkItem.GoBranch work
      = ["master"; GoRelease.BranchName latest; GoRelease.BranchName previous] ∧
      GerritTryWorkItem.GoVersion work
      = [MajorMinor.mk (GoRelease.Major latest) (GoRelease.Minor latest);
         MajorMinor.mk (GoRelease.Major latest) (GoRelease.Minor latest);
         MajorMinor.mk (GoRelease.Major previous) (GoRelease.Minor previous)].
Proof.
  intros Hmiss Hcall.
  apply GoFindTryWork_success in Hcall
    as [(Hhit & _)|(_ & cis & goProj & rs & waiting & _ & HgoProj & Hrs & Hw & -> & _)];
    [done|].
  destruct (supportedGoReleases_two _ _ Hrs) as (latest & previous & ->).
  exists goProj, latest, previous. split; [done|]. split; [done|].
  intros work Hwork Hsub. simpl in Hwork.
  rewrite sort_Slice_Permutation in Hwork.
  apply waitingFor_Some in Hw as [_ ->]. simpl in Hwork.
  apply list_elem_of_omap in Hwork as (ci & _ & Hci).
  apply appended_Some in Hci as (_ & _ & _ & work0 & _ & _ & _ & Hset & _).
  by eapply setGoFields_subrepo.
Qed.

Lemma GoFindTryWork_subrepo_witness :
  ∃ res p',
    GoFindTryWork (H:=spec_imports) {| c := twoRepoCorpus |}
      (gerritWith [changeNet; changeOne]) 100 process_start
    = (Return (Some res) None, p') ∧
    ∀ work, work ∈ GoFindTryWorkResponse.Waiting res →
      GerritTryWorkItem.Project work ≠ "go" →
      GerritTryWorkItem.GoBranch work
      = ["master"; "release-branch.go1.12"; "release-branch.go1.11"].
Proof.
  eexists _, _. split; [vm_compute; reflexivity|].
  destruct (GoFindTryWork_subrepo (H:=spec_imports) {| c := twoRepoCorpus |}
              (gerritWith [changeNet; changeOne]) 100 process_start _ _
              (or_introl eq_refl) eq_refl)
    as (goProj & latest & previous & HgoProj & Hrs & Hwork).
  injection HgoProj as <-. injection Hrs as <- <-.
  intros work Hin Hsub. exact (proj1 (proj2 (Hwork work Hin Hsub))).
Defined.





(** ** GoFindTryWork: when it cannot panic *)

Lemma setGoFields_Some `{Imports} (goProj : GerritProject.t) (latest : GoRelease.t)
    (rest : list GoRelease.t) (work : GerritTryWorkItem.t) :
  is_Some (setGoFields goProj (latest :: rest) work).
Proof. unfold setGoFields. simpl. by repeat case_match. Qed.

(** X7: the call does not panic on a corpus that has the go project and
    the project of every change in the answer of Gerrit, and in which the
    CLs of those changes have their commits. *)
Theorem GoFindTryWork_no_panic `{Imports} (s : apiService) (tryBotGerrit : GerritClient)
    (now : Time) (p : process) :
  ((tryBotGerrit query queryFields).2 = None →
   readable s (tryBotGerrit query queryFields).1) →
  (GoFindTryWork s tryBotGerrit now p).1 ≠ Panic.
Proof.
  intros Hreadable.
  destruct (decide (cacheMiss s now p)) as [Hmiss|Hhit];
    [|by rewrite GoFindTryWork_hit].
  rewrite (GoFindTryWork_miss _ _ _ _ Hmiss). cbv zeta.
  destruct (tryBotGerrit _ _) as [cis [err|]]; [done|].
  destruct (Hreadable eq_refl) as [[goProj ->] Hcis]. simpl in Hcis.
  destruct (supportedGoReleases _) as [rs [err|]] eqn:Hrs; [done|].
  destruct (supportedGoReleases_two _ _ Hrs) as (latest & previous & ->).
  destruct (waitingFor _ _ _ _ _) as [waiting|] eqn:Hw; [done|].
  assert (is_Some (waitingFor s goProj [latest; previous] cis [])) as [? Hsome];
    [|by rewrite Hw in Hsome].
  eexists. apply waitingFor_Some. split; [|done].
  eapply Forall_impl; [exact Hcis|]. intros ci (gp & Hgp & Hcl). simpl.
  unfold workFor, tryWorkItem. rewrite Hgp.
  destruct (GerritProject.CL _ _) as [cl|]; [|done].
  destruct (Hcl cl eq_refl) as [commit ->].
  match goal with
  | |- context [setGoFields ?g ?r ?w] =>
      destruct (setGoFields_Some g latest [previous] w) as [work ->]
  end.
  done.
Qed.

Lemma GoFindTryWork_no_panic_witness :
  (GoFindTryWork (H:=spec_imports) {| c := twoRepoCorpus |}
     (gerritWith [changeUnknown; changeNet; changeThree]) 100 process_start).1 ≠ Panic.
Proof.
  apply (GoFindTryWork_no_panic (H:=spec_imports)). intros _. split; [by eexists|].
  simpl. repeat constructor.
  - exists netProject. split; [reflexivity|]. intros cl [=].
  - exists netProject. split; [reflexivity|]. intros cl [= <-]. by eexists.
  - exists goProject. split; [reflexivity|]. intros cl [= <-]. by eexists.
Defined.

(** ** GoFindTryWork: the states of the process *)

(** X8: in every state that the process reaches, the queries sent to
    Gerrit are all the fixed query, and while none has been sent the
    process is as it started: the cache is written only by calls that
    query Gerrit, and holds a result only after a query. *)
Theorem reachable_queries `{Imports} (p : process) :
  reachable p →
  Forall (λ q, q = query) (gerritQueries p) ∧
  (gerritQueries p = [] → p = process_start) ∧
  (is_Some (tryCache.val (cache p)) → gerritQueries p ≠ []).
Proof.
  intros Hp.
  assert (Forall (λ q, q = query) (gerritQueries p) ∧
          (gerritQueries p = [] → p = process_start)) as [Hall Hnone].
  { induction Hp as [|s g now p r p' _ [IHall IHnone] Hcall]; [by split|].
    destruct (decide (cacheMiss s now p)) as [Hmiss|Hhit].
    - assert (gerritQueries p' = query :: gerritQueries p) as ->.
      { rewrite (GoFindTryWork_miss _ _ _ _ Hmiss) in Hcall. revert Hcall. cbv zeta.
        repeat case_match; by intros [= _ <-]. }
      split; [by constructor|done].
    - rewrite (GoFindTryWork_hit _ _ _ _ Hhit) in Hcall. by injection Hcall as _ <-. }
  split; [done|]. split; [done|].
  intros [v Hv] Hq. by rewrite (Hnone Hq) in Hv.
Qed.

Lemma reachable_queries_witness :
  Forall (λ q, q = query)
    (gerritQueries (GoFindTryWork (H:=spec_imports) {| c := emptyCorpus |} gerritDown 100
                      process_start).2).
Proof.
  apply (reachable_queries (H:=spec_imports)).
  eapply reachable_call; [apply reachable_start|apply surjective_pairing].
Defined.

(** ** The count of label changes *)

Lemma int_add_l (a b : Z) : int (int a + b) = int (a + b).
Proof.
  unfold int. f_equal.
  replace ((a + 2 ^ 63) mod 2 ^ 64 - 2 ^ 63 + b + 2 ^ 63)
    with ((a + 2 ^ 63) mod 2 ^ 64 + b) by lia.
  rewrite Zplus_mod_idemp_l. f_equal. lia.
Qed.

Lemma int_small (a : Z) : - 2 ^ 63 ≤ a < 2 ^ 63 → int a = a.
Proof. intros Ha. unfold int. rewrite Z.mod_small; lia. Qed.

Lemma int_idemp (a : Z) : int (int a) = int a.
Proof. pose proof (int_add_l a 0) as Hidemp. by rewrite !Z.add_0_r in Hidemp. Qed.

Lemma sumChanges_fold (projects : list GerritProject.t) (sum : Z) :
  int sum = sum →
  fold_left
    (λ sum gp,
       if negb (String.eqb (GerritProject.Server gp) "go.googlesource.com") then sum
       else int (sum + GerritProject.NumLabelChanges gp))
    projects sum
  = int (sum + labelChanges projects).
Proof.
  revert sum. induction projects as [|gp projects IH]; intros sum Hsum; simpl.
  - by rewrite Z.add_0_r.
  - destruct (String.eqb _ _); simpl; [|by apply IH].
    rewrite IH by apply int_idemp. rewrite int_add_l. f_equal. lia.
Qed.

Lemma labelChanges_Permutation (l1 l2 : list GerritProject.t) :
  l1 ≡ₚ l2 → labelChanges l1 = labelChanges l2.
Proof.
  induction 1 as [|gp l1 l2 _ IH|gp1 gp2 l|l1 l2 l3 _ IH1 _ IH2]; simpl;
    [done| |repeat case_match; lia|congruence].
  by rewrite IH.
Qed.

(** X9: the count that [GoFindTryWork] compares with its snapshot is the
    sum of the label changes of the projects of go.googlesource.com,
    wrapped to an [int]: projects of other servers do not count, the
    order in which [ForeachProjectUnsorted] visits the projects does not
    matter, and the count is the sum itself when that fits an [int]. *)
Theorem sumChanges_sum (s : apiService) :
  sumChanges s = int (labelChanges (Corpus.projects (c s))) ∧
  (∀ s', Corpus.projects (c s) ≡ₚ Corpus.projects (c s') → sumChanges s' = sumChanges s) ∧
  (- 2 ^ 63 ≤ labelChanges (Corpus.projects (c s)) < 2 ^ 63 →
   sumChanges s = labelChanges (Corpus.projects (c s))).
Proof.
  assert (∀ s, sumChanges s = int (labelChanges (Corpus.projects (c s)))) as Hsum.
  { intros s0. unfold sumChanges.
    rewrite sumChanges_fold; [by rewrite Z.add_0_l|reflexivity]. }
  split; [done|]. split.
  - intros s' Hperm. by rewrite !Hsum, (labelChanges_Permutation _ _ Hperm).
  - intros Hrange. by rewrite Hsum, int_small.
Qed.

Lemma sumChanges_sum_witness :
  sumChanges {| c := twoRepoCorpus |} = 10.
Proof.
  rewrite (proj2 (proj2 (sumChanges_sum {| c := twoRepoCorpus |}))); [reflexivity|].
  vm_compute. split; [discriminate|reflexivity].
Defined.

(** ** supportedGoReleases: what the releases are made of *)

Lemma visitRef_ignores `{Imports} (ref : string) (hash : GitHash) (m : refMaps) :
  isReleaseRef (ref, hash) = false → visitRef ref hash m = (m, None).
Proof.
  unfold isReleaseRef, tagPair, branchPair, visitRef. simpl.
  rewrite orb_false_iff, !bool_decide_eq_false.
  destruct (HasPrefix ref "refs/tags/go").
  - destruct (parseTagVersion _) as [[[major minor] patch] [|]]; simpl; [|done].
    intros [Htag _]. destruct Htag. by eexists.
  - destruct (HasPrefix ref "refs/heads/release-branch.go"); [|done].
    destruct (parseReleaseBranchVersion _) as [[major minor] [|]]; simpl; [|done].
    intros [_ Hbranch]. destruct Hbranch. by eexists.
Qed.

(** X10: refs that are neither a release tag nor a release branch with a
    version (other refs, and tags and branches whose names do not parse)
    have no influence: dropping them from the refs leaves the result of
    [supportedGoReleases] as it is. *)
Theorem supportedGoReleases_ignores_other_refs `{Imports} (goProj : nonChangeRefLister) :
  supportedGoReleases (List.filter isReleaseRef goProj) = supportedGoReleases goProj.
Proof.
  unfold supportedGoReleases. f_equal.
  generalize (mkRefMaps ∅ ∅).
  induction goProj as [|[ref hash] rest IH]; intros m; simpl; [done|].
  destruct (isReleaseRef (ref, hash)) eqn:Hrelease; simpl.
  - destruct (visitRef ref hash m) as [m1 [err|]]; [done|]. apply IH.
  - rewrite (visitRef_ignores _ _ _ Hrelease). apply IH.
Qed.

Lemma tagRef_fun `{Imports} (v v' : majorMinor.t) (patch patch' : Z)
    (rh : string * GitHash) :
  tagRef v patch rh → tagRef v' patch' rh → v = v' ∧ patch = patch'.
Proof.
  intros [_ Hv] [_ Hv']. rewrite Hv in Hv'. injection Hv' as Hmaj Hmin Hpatch.
  split; [|done]. destruct v, v'; simpl in *. by subst.
Qed.

Lemma elem_of_snoc {A} (l : list A) (x y : A) : x ∈ (l ++ [y])%list ↔ x ∈ l ∨ x = y.
Proof. by rewrite elem_of_app, list_elem_of_singleton. Qed.

Lemma visitRef_tags `{Imports} (ref : string) (hash : GitHash) (m : refMaps) :
  tags (visitRef ref hash m).1 =
  if HasPrefix ref "refs/tags/go" then
    match parseTagVersion (slice_from 10 ref) with
    | (major, minor, patch, true) =>
        match tags m !! majorMinor.mk major minor with
        | Some t =>
            if patch <=? tag.Patch t then tags m
            else <[majorMinor.mk major minor := tag.mk patch (slice_from 10 ref) hash]> (tags m)
        | None => <[majorMinor.mk major minor := tag.mk patch (slice_from 10 ref) hash]> (tags m)
        end
    | _ => tags m
    end
  else tags m.
Proof.
  unfold visitRef. change (String.length "refs/tags/") with 10%nat.
  repeat case_match; simplify_eq; done.
Qed.

Lemma visitRef_branches `{Imports} (ref : string) (hash : GitHash) (m : refMaps) :
  branches (visitRef ref hash m).1 =
  if HasPrefix ref "refs/tags/go" then branches m
  else if HasPrefix ref "refs/heads/release-branch.go" then
    match parseReleaseBranchVersion (slice_from 11 ref) with
    | (major, minor, true) =>
        <[majorMinor.mk major minor := branch.mk (slice_from 11 ref) hash]> (branches m)
    | _ => branches m
    end
  else branches m.
Proof.
  unfold visitRef. change (String.length "refs/heads/") with 11%nat.
  repeat case_match; simplify_eq; done.
Qed.

Lemma tagsFrom_keep `{Imports} (seen : nonChangeRefLister) (rh : string * GitHash)
    (ts : gmap majorMinor.t tag.t) (v : majorMinor.t) :
  tagsFrom seen ts →
  (∀ patch, ¬ tagRef v patch rh) →
  match ts !! v with
  | Some t =>
      (∃ ref hash, (ref, hash) ∈ (seen ++ [rh])%list ∧ tagRef v (tag.Patch t) (ref, hash) ∧
                   tag.Name t = slice_from 10 ref ∧ tag.Commit t = hash) ∧
      ∀ rh' patch, rh' ∈ (seen ++ [rh])%list → tagRef v patch rh' → patch ≤ tag.Patch t
  | None => ∀ rh' patch, rh' ∈ (seen ++ [rh])%list → ¬ tagRef v patch rh'
  end.
Proof.
  intros Hinv Hnew. specialize (Hinv v). destruct (ts !! v) as [t|].
  - destruct Hinv as [(ref & hash & Hin & Href) Hmax]. split.
    + exists ref, hash. split; [|done]. apply elem_of_snoc. by left.
    + intros rh' patch [Hrh| ->]%elem_of_snoc Htag; [by eapply Hmax|].
      by destruct (Hnew patch).
  - intros rh' patch [Hrh| ->]%elem_of_snoc; [by apply Hinv|]. apply Hnew.
Qed.

Lemma tagsFrom_insert `{Imports} (seen : nonChangeRefLister) (ref : string) (hash : GitHash)
    (ts : gmap majorMinor.t tag.t) (v : majorMinor.t) (patch : Z) :
  tagsFrom seen ts →
  tagRef v patch (ref, hash) →
  (∀ t, ts !! v = Some t → tag.Patch t < patch) →
  tagsFrom (seen ++ [(ref, hash)])%list (<[v := tag.mk patch (slice_from 10 ref) hash]> ts).
Proof.
  intros Hinv Href Hnewer v'. destruct (decide (v' = v)) as [->|Hv].
  - rewrite lookup_insert_eq. split.
    + exists ref, hash. split; [|done]. apply elem_of_snoc. by right.
    + intros rh patch' [Hrh| ->]%elem_of_snoc Htag; simpl.
      * specialize (Hinv v). destruct (ts !! v) as [t|].
        -- destruct Hinv as [_ Hmax]. specialize (Hmax _ _ Hrh Htag).
           specialize (Hnewer t eq_refl). lia.
        -- by destruct (Hinv _ _ Hrh Htag).
      * by destruct (tagRef_fun _ _ _ _ _ Htag Href) as [_ ->].
  - rewrite lookup_insert_ne by done. apply tagsFrom_keep; [done|].
    intros patch' Hv'. by destruct (tagRef_fun _ _ _ _ _ Hv' Href).
Qed.

Lemma visitRef_tagsFrom `{Imports} (seen : nonChangeRefLister) (ref : string)
    (hash : GitHash) (m : refMaps) :
  tagsFrom seen (tags m) →
  tagsFrom (seen ++ [(ref, hash)])%list (tags (visitRef ref hash m).1).
Proof.
  intros Hinv. rewrite visitRef_tags.
  destruct (HasPrefix ref "refs/tags/go") eqn:Hprefix; cycle 1.
  { intros v. apply tagsFrom_keep; [done|]. intros patch [Hp _]. cbn [fst] in Hp. congruence. }
  destruct (parseTagVersion (slice_from 10 ref)) as [[[major minor] patch] ok] eqn:Hparse.
  destruct ok; cycle 1.
  { intros v. apply tagsFrom_keep; [done|]. intros patch' [_ Hp]. cbn [fst] in Hp. congruence. }
  assert (tagRef (majorMinor.mk major minor) patch (ref, hash)) as Href by (by split).
  destruct (tags m !! majorMinor.mk major minor) as [t|] eqn:Ht.
  - destruct (Z.leb_spec patch (tag.Patch t)) as [Hle|Hgt].
    + intros v. destruct (decide (v = majorMinor.mk major minor)) as [->|Hv].
      * specialize (Hinv (majorMinor.mk major minor)). rewrite Ht in Hinv |- *.
        destruct Hinv as [(ref' & hash' & Hin & Hrest) Hmax]. split.
        -- exists ref', hash'. split; [|done]. apply elem_of_snoc. by left.
        -- intros rh patch' [Hrh| ->]%elem_of_snoc Htag; [by eapply Hmax|].
           by destruct (tagRef_fun _ _ _ _ _ Htag Href) as [_ ->].
      * apply tagsFrom_keep; [done|].
        intros patch' Hv'. by destruct (tagRef_fun _ _ _ _ _ Hv' Href).
    + apply tagsFrom_insert; [done..|]. intros t' Ht'. rewrite Ht in Ht'.
      injection Ht' as <-. lia.
  - apply tagsFrom_insert; [done..|]. intros t' Ht'. by rewrite Ht in Ht'.
Qed.

Lemma visitRef_branchesFrom `{Imports} (seen : nonChangeRefLister) (ref : string)
    (hash : GitHash) (m : refMaps) :
  branchesFrom seen (branches m) →
  branchesFrom (seen ++ [(ref, hash)])%list (branches (visitRef ref hash m).1).
Proof.
  intros Hinv.
  assert (branchesFrom (seen ++ [(ref, hash)])%list (branches m)) as Hkeep.
  { intros v b (ref' & hash' & Hin & Hrest)%Hinv. exists ref', hash'.
    split; [|done]. apply elem_of_snoc. by left. }
  rewrite visitRef_branches.
  destruct (HasPrefix ref "refs/tags/go"); [done|].
  destruct (HasPrefix ref "refs/heads/release-branch.go") eqn:Hprefix; [|done].
  destruct (parseReleaseBranchVersion (slice_from 11 ref)) as [[major minor] ok] eqn:Hparse.
  destruct ok; [|done].
  intros v b. destruct (decide (v = majorMinor.mk major minor)) as [->|Hv].
  - rewrite lookup_insert_eq. intros [= <-]. exists ref, hash.
    split; [apply elem_of_snoc; by right|]. by repeat split.
  - rewrite lookup_insert_ne by done. apply Hkeep.
Qed.

(** The maps at the end of the iteration hold, for each version, the
    highest patch among its tags and one of its release branches. *)
Lemma ForeachNonChangeRef_from `{Imports} (seen rest : nonChangeRefLister) (m m' : refMaps)
    (err : option error) :
  tagsFrom seen (tags m) →
  branchesFrom seen (branches m) →
  ForeachNonChangeRef rest visitRef m = (m', err) →
  tagsFrom (seen ++ rest)%list (tags m') ∧ branchesFrom (seen ++ rest)%list (branches m').
Proof.
  revert seen m. induction rest as [|[ref hash] rest IH]; intros seen m Ht Hb; simpl.
  - intros [= <- _]. by rewrite app_nil_r.
  - pose proof (visitRef_no_error ref hash m) as Herr.
    pose proof (visitRef_tagsFrom seen ref hash m Ht) as Ht'.
    pose proof (visitRef_branchesFrom seen ref hash m Hb) as Hb'.
    destruct (visitRef ref hash m) as [m1 err1]. simpl in Herr, Ht', Hb'. subst err1.
    intros Hrest. rewrite (cons_middle _ seen rest), (assoc_L (++)).
    by eapply IH.
Qed.

(** X11: each release that [supportedGoReleases] returns is made of refs
    that are there: its patch is the highest among the tags of its
    version, its tag name and tag commit are the name and the printed
    hash of a tag with that patch, and its branch name and branch commit
    are those of a release branch of its version. *)
Theorem supportedGoReleases_fields `{Imports} (goProj : nonChangeRefLister)
    (rs : list GoRelease.t) (r : GoRelease.t) :
  supportedGoReleases goProj = (rs, None) →
  r ∈ rs →
  (∃ ref hash, (ref, hash) ∈ goProj ∧
               tagRef (pairOf r) (GoRelease.Patch r) (ref, hash) ∧
               GoRelease.TagName r = slice_from 10 ref ∧
               GoRelease.TagCommit r = GitHash_String hash) ∧
  (∀ rh patch, rh ∈ goProj → tagRef (pairOf r) patch rh → patch ≤ GoRelease.Patch r) ∧
  (∃ ref hash, (ref, hash) ∈ goProj ∧
               branchRef (pairOf r) (ref, hash) ∧
               GoRelease.BranchName r = slice_from 11 ref ∧
               GoRelease.BranchCommit r = GitHash_String hash).
Proof.
  unfold supportedGoReleases.
  destruct (ForeachNonChangeRef goProj visitRef _) as [m [err|]] eqn:Hfold; [done|].
  simpl. destruct (Z.of_nat (length (allReleases m)) <? 2); [done|].
  intros [= <-] Hr%subseteq_take.
  unfold allReleases in Hr. rewrite sort_Slice_Permutation in Hr.
  apply list_elem_of_omap in Hr as ([v t] & Hvt%elem_of_map_to_list & Hrel).
  unfold releaseOf in Hrel. simpl in Hrel.
  destruct (branches m !! v) as [b|] eqn:Hb; [|done]. injection Hrel as <-.
  destruct (ForeachNonChangeRef_from [] goProj (mkRefMaps ∅ ∅) m None) as [Htags Hbranches];
    [intros v'; cbn [tags]; rewrite lookup_empty; by intros ? ? ?%elem_of_nil
    |intros v' b'; cbn [branches]; by rewrite lookup_empty|done|].
  simpl in Htags, Hbranches.
  specialize (Htags v). rewrite Hvt in Htags.
  destruct Htags as [(ref & hash & Hin & Href & Hname & Hcommit) Hmax].
  destruct (Hbranches v b Hb) as (bref & bhash & Hbin & Hbref & Hbname & Hbcommit).
  unfold pairOf. simpl. replace (majorMinor.mk _ _) with v by (by destruct v).
  split; [|split; [done|]].
  - exists ref, hash. by rewrite Hcommit.
  - exists bref, bhash. by rewrite Hbcommit.
Qed.

Lemma supportedGoReleases_fields_witness :
  ∃ ref hash,
    (ref, hash) ∈ fixture "11" "12" "121" "b11" "b12" ∧
    tagRef (H:=spec_imports) (majorMinor.mk 1 12) 1 (ref, hash) ∧
    "go1.12.1" = slice_from 10 ref ∧ "121" = hash.
Proof.
  apply (proj1 (supportedGoReleases_fields (H:=spec_imports)
           (fixture "11" "12" "121" "b11" "b12") _
           (GoRelease.mk 1 12 1 "go1.12.1" "121" "release-branch.go1.12" "b12")
           eq_refl (list_elem_of_here _ _))).
Defined.

(** * Properties of tryBotStatus *)

Lemma String_append_cons (x : ascii) (a b : string) :
  String.append (String x a) b = String x (String.append a b).
Proof. reflexivity. Qed.

Lemma String_append_nil (b : string) : String.append EmptyString b = b.
Proof. reflexivity. Qed.

Lemma String_append_assoc (a b d : string) :
  String.append (String.append a b) d = String.append a (String.append b d).
Proof.
  induction a as [|x a IH]; [done|]. rewrite !String_append_cons. by f_equal.
Qed.

Lemma prefix_append (sub s : string) :
  String.prefix sub s = true ↔ ∃ b, s = String.append sub b.
Proof.
  revert s. induction sub as [|x sub IH]; intros s.
  - split; [intros _; by exists s|intros _; by destruct s].
  - destruct s as [|y s].
    + split; [done|by intros [b [=]]].
    + rewrite prefix_cons, IH. split.
      * intros [-> [b ->]]. by exists b.
      * intros [b [= -> ->]]. split; [done|by exists b].
Qed.

(** [strings.Contains]: the substring occurs somewhere in the string. *)
Lemma Contains_append (s sub : string) :
  Contains s sub = true ↔ ∃ a b, s = String.append a (String.append sub b).
Proof.
  induction s as [|x s IH].
  - change (Contains EmptyString sub) with (HasPrefix EmptyString sub || false).
    rewrite orb_false_r. unfold HasPrefix. rewrite prefix_append. split.
    + intros [b ->]. by exists EmptyString, b.
    + intros (a & b & Hs). destruct a; [by exists b|done].
  - change (Contains (String x s) sub)
      with (HasPrefix (String x s) sub || Contains s sub).
    rewrite orb_true_iff, IH. unfold HasPrefix. rewrite prefix_append. split.
    + intros [[b ->]|(a & b & ->)]; [by exists EmptyString, b|by exists (String x a), b].
    + intros ([|y a] & b & Hs); [left; by exists b|].
      right. rewrite String_append_cons in Hs. injection Hs as -> ->. by exists a, b.
Qed.

Lemma Contains_trans (s big small : string) :
  Contains s big = true → Contains big small = true → Contains s small = true.
Proof.
  rewrite !Contains_append. intros (a & b & ->) (a' & b' & ->).
  exists (String.append a a'), (String.append b' b).
  by rewrite !String_append_assoc.
Qed.

Lemma Contains_not (s big small : string) :
  Contains big small = true → Contains s small = false → Contains s big = false.
Proof.
  intros Hbig Hsmall. destruct (Contains s big) eqn:Hs; [|done].
  by rewrite (Contains_trans _ _ _ Hs Hbig) in Hsmall.
Qed.

(** A round on a message: its vote, if it casts one, and its report. *)
Lemma tryBotRound_vote (version : Z) (st : bool * bool) (msg : GerritMessage.t) :
  tryBotRound version st msg
  = (default st.1 (tryVote version msg), st.2 || reportsResult version msg).
Proof.
  unfold tryBotRound, tryVote, reportsResult. destruct st as [try done]. simpl.
  destruct (GerritMessage.Version msg =? version); simpl; [|by rewrite orb_false_r].
  destruct (Contains (firstLine (GerritMessage.Message msg)) "TryBot") eqn:Hguard; simpl.
  - by repeat case_match; rewrite ?orb_true_r, ?orb_false_r.
  - rewrite (Contains_not _ "-Run-TryBot" "TryBot" eq_refl Hguard).
    rewrite (Contains_not _ "Run-TryBot+1" "TryBot" eq_refl Hguard).
    rewrite (Contains_not _ "TryBot-Result" "TryBot" eq_refl Hguard).
    by rewrite orb_false_r.
Qed.

Lemma default_last_cons {A} (d x : A) (l : list A) :
  default d (last (x :: l)) = default x (last l).
Proof. rewrite last_cons. by destruct (last l). Qed.

Lemma tryBotRound_fold (version : Z) (msgs : list GerritMessage.t) (st : bool * bool) :
  fold_left (tryBotRound version) msgs st
  = (default st.1 (last (omap (tryVote version) msgs)),
     st.2 || existsb (reportsResult version) msgs).
Proof.
  revert st. induction msgs as [|msg msgs IH]; intros [try done]; simpl.
  - by rewrite orb_false_r.
  - rewrite IH, tryBotRound_vote. simpl. rewrite orb_assoc. f_equal.
    destruct (tryVote version msg); simpl; [|done].
    by rewrite default_last_cons.
Qed.

(** X12: for a change that has its commit and is of the kind asked for
    (staging or not), [try] is the last vote cast on the current patch set
    (a request Run-TryBot+1, or a retraction -Run-TryBot, which wins
    inside one message) and is false when there is none, and [done] tells
    whether some message on the current patch set reports a TryBot-Result;
    for any other change both are false. *)
Theorem tryBotStatus_votes (cl : GerritCLMessages.t) (forStaging : bool) :
  tryBotStatus cl forStaging =
  if bool_decide (is_Some (GerritCL.Commit (GerritCLMessages.CL cl)))
     && Bool.eqb forStaging (isStagingCommit (GerritCLMessages.CL cl))
  then (default false
          (last (omap (tryVote (GerritCLMessages.Version cl)) (GerritCLMessages.Messages cl))),
        existsb (reportsResult (GerritCLMessages.Version cl)) (GerritCLMessages.Messages cl))
  else (false, false).
Proof.
  unfold tryBotStatus.
  destruct (GerritCL.Commit (GerritCLMessages.CL cl)) as [commit|]; [|done].
  rewrite bool_decide_true by done. simpl.
  destruct (Bool.eqb forStaging _); simpl; [|done].
  by rewrite tryBotRound_fold.
Qed.

Lemma IndexByte_slice_to (s : string) (ch : ascii) :
  IndexByte s ch ≠ -1 →
  0 ≤ IndexByte s ch ∧ IndexByte (slice_to (Z.to_nat (IndexByte s ch)) s) ch = -1.
Proof.
  induction s as [|x s IH]; simpl; [done|].
  destruct (Ascii.eqb x ch) eqn:Hx; [done|].
  destruct (Z.eqb_spec (IndexByte s ch) (-1)) as [|Hfound]; [done|]. intros _.
  destruct (IH Hfound) as [Hpos Hnone]. split; [lia|].
  rewrite Z2Nat.inj_add by lia. rewrite Nat.add_1_r. simpl.
  by rewrite Hx, Hnone.
Qed.

Lemma firstLine_idemp (message : string) : firstLine (firstLine message) = firstLine message.
Proof.
  unfold firstLine at 2 3.
  destruct (Z.eqb_spec (IndexByte message "010") (-1)) as [Hnone|Hfound]; simpl.
  - unfold firstLine. by rewrite Hnone.
  - unfold firstLine. by rewrite (proj2 (IndexByte_slice_to _ _ Hfound)).
Qed.

(** X13: [tryBotStatus] reads the first lines of the messages on the
    current patch set and nothing else of the messages: it gives the same
    for the change with the messages on other patch sets removed and
    every message cut down to its first line. *)
Theorem tryBotStatus_first_lines (cl : GerritCL.t) (version : Z)
    (msgs : list GerritMessage.t) (forStaging : bool) :
  tryBotStatus (GerritCLMessages.mk cl version msgs) forStaging
  = tryBotStatus
      (GerritCLMessages.mk cl version
         (map (λ msg, GerritMessage.mk (GerritMessage.Version msg)
                        (firstLine (GerritMessage.Message msg)))
            (List.filter (λ msg, GerritMessage.Version msg =? version) msgs)))
      forStaging.
Proof.
  unfold tryBotStatus. simpl.
  destruct (GerritCL.Commit cl); [|done].
  destruct (negb _); [done|].
  generalize (false, false).
  induction msgs as [|msg msgs IH]; intros st; simpl; [done|].
  destruct (Z.eqb_spec (GerritMessage.Version msg) version) as [Hv|Hv]; simpl.
  - rewrite <- IH. f_equal. unfold tryBotRound. simpl. by rewrite firstLine_idemp.
  - rewrite <- IH. f_equal. unfold tryBotRound.
    by rewrite (proj2 (Z.eqb_neq _ _) Hv).
Qed.

(** * Properties of the checks in builders_test.go *)

(** ** TestOSARCHAccessors *)

Lemma Contains_hyphen_cons (x : ascii) (s : string) :
  Contains (String x s) "-" = false ↔ x ≠ "-"%char ∧ Contains s "-" = false.
Proof.
  change (Contains (String x s) "-") with (HasPrefix (String x s) "-" || Contains s "-").
  rewrite orb_false_iff. unfold HasPrefix.
  assert (String.prefix "-" (String x s) = false ↔ x ≠ "-"%char) as ->; [|done].
  rewrite <- not_true_iff_false, prefix_cons. split.
  - intros Hne Hx. subst x. apply Hne. split; [done|by destruct s].
  - intros Hne [Hx _]. by subst x.
Qed.

(** What stands before the first hyphen, and what after it, is one way
    only of cutting a string. *)
Lemma hyphen_cut_unique (a1 a2 b1 b2 : string) :
  Contains a1 "-" = false → Contains a2 "-" = false →
  String.append a1 (String "-" b1) = String.append a2 (String "-" b2) →
  a1 = a2 ∧ b1 = b2.
Proof.
  revert a2. induction a1 as [|x a1 IH]; intros [|y a2] H1 H2 Heq;
    rewrite ?String_append_cons, ?String_append_nil in Heq.
  - by injection Heq as ->.
  - injection Heq as <- _. by apply Contains_hyphen_cons in H2 as [[] _].
  - injection Heq as -> _. by apply Contains_hyphen_cons in H1 as [[] _].
  - injection Heq as -> Heq.
    apply Contains_hyphen_cons in H1 as [_ H1]. apply Contains_hyphen_cons in H2 as [_ H2].
    destruct (IH a2 H1 H2 Heq) as [-> ->]. done.
Qed.

(** The same for a part that ends at a hyphen or at the end. *)
Lemma hyphen_end_unique (a1 a2 r1 r2 : string) :
  Contains a1 "-" = false → Contains a2 "-" = false →
  (r1 = "" ∨ ∃ r, r1 = String "-" r) → (r2 = "" ∨ ∃ r, r2 = String "-" r) →
  String.append a1 r1 = String.append a2 r2 →
  a1 = a2.
Proof.
  revert a2. induction a1 as [|x a1 IH]; intros [|y a2] H1 H2 Hr1 Hr2 Heq;
    rewrite ?String_append_cons, ?String_append_nil in Heq.
  - done.
  - destruct Hr1 as [->|[r ->]]; [done|]. injection Heq as <- _.
    by apply Contains_hyphen_cons in H2 as [[] _].
  - destruct Hr2 as [->|[r ->]]; [done|]. injection Heq as -> _.
    by apply Contains_hyphen_cons in H1 as [[] _].
  - injection Heq as -> Heq.
    apply Contains_hyphen_cons in H1 as [_ H1]. apply Contains_hyphen_cons in H2 as [_ H2].
    by rewrite (IH a2 H1 H2 Hr1 Hr2 Heq).
Qed.

Lemma String_append_nil_r (a : string) : String.append a "" = a.
Proof. induction a as [|x a IH]; [done|]. rewrite String_append_cons. by f_equal. Qed.

Lemma accepted_shape (name os arch : string) :
  OSARCHTest.accepted name os arch = true →
  os ≠ "" ∧ arch ≠ "" ∧ Contains os "-" = false ∧ Contains arch "-" = false ∧
  ∃ rest, name = String.append os (String "-" (String.append arch rest)) ∧
          (rest = "" ∨ ∃ r, rest = String "-" r).
Proof.
  unfold OSARCHTest.accepted, OSARCHTest.valid. cbv zeta.
  rewrite negb_true_iff, !orb_false_iff, !negb_false_iff, !andb_true_iff,
    !negb_true_iff, orb_true_iff.
  intros [[[Hos Hos'] [Harch Harch']] Hname].
  split; [by destruct (String.eqb_spec os "")|].
  split; [by destruct (String.eqb_spec arch "")|].
  split; [done|]. split; [done|].
  destruct Hname as [->%String.eqb_eq|Hprefix].
  - exists "". split; [|by left]. by rewrite String_append_nil_r.
  - apply prefix_append in Hprefix as [r ->]. exists (String "-" r).
    split; [|right; by exists r].
    by rewrite !String_append_assoc.
Qed.

(** X14: the check of TestOSARCHAccessors leaves one answer only: when it
    accepts a name with two pairs of accessors, the two pairs are equal;
    and what it accepts is non-empty and free of hyphens.  So the name of
    a builder fixes its GOOS and GOARCH. *)
Theorem accepted_unique (name os1 arch1 os2 arch2 : string) :
  OSARCHTest.accepted name os1 arch1 = true →
  OSARCHTest.accepted name os2 arch2 = true →
  os1 = os2 ∧ arch1 = arch2 ∧ os1 ≠ "" ∧ arch1 ≠ "" ∧
  Contains os1 "-" = false ∧ Contains arch1 "-" = false.
Proof.
  intros (Hos1 & Harch1 & Ho1 & Ha1 & rest1 & Hname1 & Hrest1)%accepted_shape
         (_ & _ & Ho2 & Ha2 & rest2 & Hname2 & Hrest2)%accepted_shape.
  rewrite Hname1 in Hname2.
  destruct (hyphen_cut_unique _ _ _ _ Ho1 Ho2 Hname2) as [-> Htail].
  pose proof (hyphen_end_unique _ _ _ _ Ha1 Ha2 Hrest1 Hrest2 Htail) as Harch.
  subst arch2. done.
Qed.

Lemma accepted_unique_witness :
  OSARCHTest.accepted "linux-amd64-race" "linux" "amd64" = true ∧
  "linux" ≠ "" ∧ Contains "amd64" "-" = false.
Proof.
  split; [reflexivity|].
  destruct (accepted_unique "linux-amd64-race" "linux" "amd64" "linux" "amd64"
              eq_refl eq_refl) as (_ & _ & Hos & _ & _ & Harch).
  by split.
Defined.

(** ** TestTrybots *)

Lemma checkGot_spec (got : list string) (m : gmap string bool) :
  ((TrybotsTest.checkGot got m).1 = [] ↔ NoDup got ∧ ∀ b, b ∈ got → b ∈ dom m) ∧
  dom (TrybotsTest.checkGot got m).2 = dom m ∖ list_to_set got.
Proof.
  revert m. induction got as [|b rest IH]; intros m; simpl.
  - split; [|set_solver]. split; [intros _|done]. split; [constructor|].
    by intros b ?%elem_of_nil.
  - destruct (IH (delete b m)) as [Hnone Hdom].
    destruct (TrybotsTest.checkGot rest (delete b m)) as [more m'] eqn:Hrest.
    simpl in *. rewrite Hdom, dom_delete_L. split; [|set_solver].
    rewrite NoDup_cons. split.
    + intros [Hb Hmore]%app_eq_nil. apply Hnone in Hmore as [Hnodup Hin].
      assert (b ∈ dom m) as Hbm.
      { apply elem_of_dom. by destruct (m !! b). }
      split; [split; [|done]|].
      * intros Hbrest. specialize (Hin b Hbrest). set_solver.
      * intros x [->|Hx]%elem_of_cons; [done|]. specialize (Hin x Hx). set_solver.
    + intros [[Hb Hnodup] Hin].
      assert (is_Some (m !! b)) as [v ->] by (apply elem_of_dom, Hin; by left).
      simpl. apply Hnone. split; [done|]. intros x Hx.
      assert (x ∈ dom m) by (apply Hin; by right).
      assert (x ≠ b) by (by intros ->). set_solver.
Qed.

Lemma want_map_dom (want : list string) (m : gmap string bool) :
  dom (fold_left (λ m b, <[b:=true]> m) want m) = dom m ∪ list_to_set want.
Proof.
  revert m. induction want as [|b want IH]; intros m; simpl; [set_solver|].
  rewrite IH, dom_insert_L. set_solver.
Qed.

(** X15: the subtest of TestTrybots reports nothing exactly when the
    names it got are the names it wants, each of them once: a name that is
    not wanted, or that comes a second time, is reported as unexpected,
    and a wanted name that does not come is reported as missing. *)
Theorem TestTrybots_report (got want : list string) :
  TrybotsTest.report got want = ([], []) ↔
  NoDup got ∧ ∀ b, b ∈ got ↔ b ∈ want.
Proof.
  unfold TrybotsTest.report.
  pose proof (want_map_dom want ∅) as Hwant. rewrite dom_empty_L in Hwant.
  destruct (checkGot_spec got (fold_left (λ m b, <[b:=true]> m) want ∅)) as [Hnone Hdom].
  destruct (TrybotsTest.checkGot got _) as [unexpected m'].
  simpl in Hnone, Hdom. rewrite Hwant in Hnone, Hdom.
  rewrite (left_id_L ∅ (∪)) in Hnone.
  assert ((map_to_list m').*1 = [] ↔ ∀ b, b ∈ want → b ∈ got) as Hmissing.
  { assert ((map_to_list m').*1 = [] ↔ map_to_list m' = []) as ->.
    { split; [apply fmap_nil_inv|by intros ->]. }
    rewrite map_to_list_empty_iff, <- dom_empty_iff_L, Hdom, (left_id_L ∅ (∪)). split.
    - intros Hempty b Hb. destruct (decide (b ∈ got)) as [|Hgot]; [done|].
      assert (b ∈ (∅ : gset string)) as []%elem_of_empty.
      rewrite <- Hempty. apply elem_of_difference.
      by rewrite !elem_of_list_to_set.
    - intros Hin. apply set_eq. intros b.
      rewrite elem_of_difference, !elem_of_list_to_set, elem_of_empty. naive_solver. }
  split.
  - intros [= Hu Hm]. apply Hnone in Hu as [Hnodup Hin]. split; [done|].
    intros b. split; [intros Hb%Hin; by apply elem_of_list_to_set in Hb|by apply Hmissing].
  - intros [Hnodup Hin]. f_equal.
    + apply Hnone. split; [done|]. intros b Hb%Hin. by apply elem_of_list_to_set.
    + apply Hmissing. intros b. apply Hin.
Qed.

Lemma TestTrybots_report_witness :
  TrybotsTest.report ["linux-amd64"; "linux-386"] ["linux-386"; "linux-amd64"] = ([], []).
Proof.
  apply TestTrybots_report. split.
  - apply (bool_decide_unpack _). vm_compute. exact I.
  - intros b. rewrite !elem_of_cons. tauto.
Defined.

(** ** TestBuilderConfig: the rows of the table *)

Lemma Contains_at_cons (x : ascii) (s : string) :
  Contains (String x s) "@" = false ↔ x ≠ "@"%char ∧ Contains s "@" = false.
Proof.
  change (Contains (String x s) "@") with (HasPrefix (String x s) "@" || Contains s "@").
  rewrite orb_false_iff. unfold HasPrefix.
  assert (String.prefix "@" (String x s) = false ↔ x ≠ "@"%char) as ->; [|done].
  rewrite <- not_true_iff_false, prefix_cons. split.
  - intros Hne Hx. subst x. apply Hne. split; [done|by destruct s].
  - intros Hne [Hx _]. by subst x.
Qed.

Lemma splitAt_None (s : string) :
  Contains s "@" = false → BuilderConfigTest.splitAt s = None.
Proof.
  induction s as [|x s IH]; [done|].
  intros [Hx Hs]%Contains_at_cons. simpl.
  destruct (Ascii.eqb_spec x "@"); [done|]. by rewrite IH.
Qed.

Lemma splitAt_Some (name rest : string) :
  Contains name "@" = false →
  BuilderConfigTest.splitAt (String.append name (String "@" rest)) = Some (name, rest).
Proof.
  induction name as [|x name IH]; [done|].
  intros [Hx Hname]%Contains_at_cons. rewrite String_append_cons. simpl.
  destruct (Ascii.eqb_spec x "@"); [done|]. by rewrite IH.
Qed.

Lemma expandBranch_idemp (s : string) :
  BuilderConfigTest.expandBranch (BuilderConfigTest.expandBranch s)
  = BuilderConfigTest.expandBranch s.
Proof.
  unfold BuilderConfigTest.expandBranch at 2 3.
  destruct (HasPrefix s "go1.") eqn:Hgo; [reflexivity|].
  destruct (HasPrefix s "1.") eqn:Hone; [reflexivity|].
  unfold BuilderConfigTest.expandBranch. by rewrite Hgo, Hone.
Qed.

(** X16: a row of the table names its builder and its repository and,
    after an at sign, their branches: for names without an at sign, the
    row of [builder@g] and [repo@r] is about [builder] and [repo], with the
    Go branch [g] and the branch [r], each with its alias go1.N or 1.N
    expanded to release-branch.go1.N; without an at sign the branch is
    master; and for the go repository the branch is the Go branch.
    Expanding an expanded branch changes nothing. *)
Theorem b_row (builder repo g r : string) :
  Contains builder "@" = false →
  Contains repo "@" = false →
  let row := BuilderConfigTest.b (String.append builder (String "@" g))
               (String.append repo (String "@" r)) in
  let plain := BuilderConfigTest.b builder repo in
  BuilderConfigTest.builder row = builder ∧
  BuilderConfigTest.repo row = repo ∧
  BuilderConfigTest.goBranch row = BuilderConfigTest.expandBranch g ∧
  BuilderConfigTest.branch row
  = (if String.eqb repo "go" then BuilderConfigTest.expandBranch g
     else BuilderConfigTest.expandBranch r) ∧
  BuilderConfigTest.builder plain = builder ∧
  BuilderConfigTest.repo plain = repo ∧
  BuilderConfigTest.goBranch plain = "master" ∧
  BuilderConfigTest.branch plain = "master" ∧
  BuilderConfigTest.expandBranch (BuilderConfigTest.goBranch row)
  = BuilderConfigTest.goBranch row.
Proof.
  intros Hbuilder Hrepo row plain. subst row plain. unfold BuilderConfigTest.b.
  rewrite !splitAt_Some, !splitAt_None by done. simpl.
  rewrite expandBranch_idemp. by destruct (String.eqb repo "go").
Qed.

Lemma b_row_witness :
  BuilderConfigTest.goBranch (BuilderConfigTest.b "linux-amd64@go1.12" "net@1.12")
  = "release-branch.go1.12" ∧
  BuilderConfigTest.branch (BuilderConfigTest.b "linux-amd64@go1.12" "net@1.12")
  = "release-branch.go1.12".
Proof.
  destruct (b_row "linux-amd64" "net" "go1.12" "1.12" eq_refl eq_refl)
    as (_ & _ & HgoBranch & Hbranch & _).
  split; [exact HgoBranch|exact Hbranch].
Defined.

(** X17: eligibility functions that pass TestBuilderConfig answer
    post-submit wherever they answer trybot, on each row of its table;
    the table asks for no trybot that is not a post-submit builder. *)
Theorem TestBuilderConfig_rows
    (BuildsRepoPostSubmit BuildsRepoTryBot : string → string → string → string → bool)
    (br : BuilderConfigTest.builderAndRepo) (want : Z) :
  forallb (BuilderConfigTest.rowPasses BuildsRepoPostSubmit BuildsRepoTryBot)
    BuilderConfigTest.tests = true →
  (br, want) ∈ BuilderConfigTest.tests →
  (Z.land want BuilderConfigTest.isTrybot ≠ 0 →
   Z.land want BuilderConfigTest.isBuilder ≠ 0) ∧
  (BuildsRepoTryBot (BuilderConfigTest.builder br) (BuilderConfigTest.repo br)
     (BuilderConfigTest.branch br) (BuilderConfigTest.goBranch br) = true →
   BuildsRepoPostSubmit (BuilderConfigTest.builder br) (BuilderConfigTest.repo br)
     (BuilderConfigTest.branch br) (BuilderConfigTest.goBranch br) = true).
Proof.
  intros Hpass Hrow. split.
  - pose proof TestBuilderConfig_wants as Hwants. rewrite Forall_forall in Hwants.
    apply (Hwants _ Hrow).
  - by apply (TestBuilderConfig_trybot_subset _ _ Hpass br want).
Qed.

Lemma TestBuilderConfig_rows_witness :
  BuilderConfigTest.tableAnswer BuilderConfigTest.isBuilder
    "linux-amd64" "go" "master" "master" = true.
Proof.
  refine (proj2 (TestBuilderConfig_rows
                   (BuilderConfigTest.tableAnswer BuilderConfigTest.isBuilder)
                   (BuilderConfigTest.tableAnswer BuilderConfigTest.isTrybot)
                   (BuilderConfigTest.b "linux-amd64" "go") BuilderConfigTest.both _ _) _);
    [vm_compute; reflexivity|apply list_elem_of_here|vm_compute; reflexivity].
Defined.
